(** * Symbolic arithmetic over the Pauli group, its tensors and its group algebra

    A shallow embedding of [pauli_group.py] and [pauli_algebra.py].

    Conventions of the embedding.
    - Python scalars ([int], [float], [complex]; everything for which
      [isinstance(x, Complex)] holds) are exact Gaussian rationals: a pair of
      canonical rationals [Qc].  All three Python types compare and hash by
      numeric value, so one type serves for them.  Rounding, infinities and
      NaN are outside the model.
    - A raised exception is the [Raise] branch of [result]; evaluation order is
      the order of the binds.
    - A [dict] keyed by tensors is an association list in insertion order,
      searched with the key test a Python dict performs (hash first, then
      [__eq__]). *)

From Stdlib Require Import QArith Qcanon ZArith String Ascii Lia.
From stdpp Require Import base decidable option list list_monad gmap strings pretty sorting.

Open Scope Z_scope.

(** ** Scalars *)

#[global] Instance Qc_eq_decision : EqDecision Qc := Qc_eq_dec.

Record Complex : Type := mkC { re : Qc; im : Qc }.

#[global] Instance Complex_eq_decision : EqDecision Complex.
Proof. solve_decision. Defined.

Definition C_of_Z (n : Z) : Complex := mkC (Q2Qc (inject_Z n)) 0%Qc.

Definition C0 : Complex := C_of_Z 0.
Definition C1 : Complex := C_of_Z 1.
(** [1j] *)
Definition Ci : Complex := mkC 0%Qc 1%Qc.

Definition Cadd (a b : Complex) : Complex :=
  mkC (re a + re b)%Qc (im a + im b)%Qc.

Definition Cmul (a b : Complex) : Complex :=
  mkC (re a * re b - im a * im b)%Qc (re a * im b + im a * re b)%Qc.

Definition Copp (a : Complex) : Complex := mkC (- re a)%Qc (- im a)%Qc.

(** ** Exceptions *)

Inductive error : Type :=
  (** [ValueError("Phase must be a fourth root of unity.")] *)
  | InvalidPhaseError
  (** [ValueError("Tensors must have the same number of factors.")] *)
  | DimensionMismatchError
  (** [TypeError]: both [__mul__] and the reflected [__rmul__] answered
      [NotImplemented] *)
  | UnsupportedOperandError
  (** a failed lookup by name or key: [SIGMA[c]], [TIMES_TABLE[k]] *)
  | KeyError
  (** division of a scalar by zero *)
  | ZeroDivisionError
  (** [list.index] of an absent value *)
  | NotInListError
  (** list subscript out of range *)
  | IndexError.

#[global] Instance error_eq_decision : EqDecision error.
Proof. solve_decision. Defined.

Inductive result (A : Type) : Type :=
  | Ok (a : A)
  | Raise (e : error).
Arguments Ok {A} a.
Arguments Raise {A} e.

#[global] Instance result_eq_decision {A} `{EqDecision A} : EqDecision (result A).
Proof. solve_decision. Defined.

#[global] Instance result_ret : MRet result := λ A a, Ok a.
#[global] Instance result_bind : MBind result := λ A B f m,
  match m with
  | Ok a => f a
  | Raise e => Raise e
  end.

#[global] Instance result_fmap : FMap result := λ A B f m,
  match m with
  | Ok a => Ok (f a)
  | Raise e => Raise e
  end.

(** Fold with a step that can raise: a [for] loop updating an accumulator. *)
Fixpoint foldlM {A B} (f : B → A → result B) (acc : B) (l : list A) : result B :=
  match l with
  | [] => Ok acc
  | x :: l' => acc' ← f acc x; foldlM f acc' l'
  end.

(** [a / b] on scalars. *)
Definition Cdiv (a b : Complex) : result Complex :=
  if bool_decide (b = C0) then Raise ZeroDivisionError
  else
    let n := (re b * re b + im b * im b)%Qc in
    Ok (mkC ((re a * re b + im a * im b) / n)%Qc
            ((im a * re b - re a * im b) / n)%Qc).

(** ** pauli_group.py *)

Inductive SIGMA : Type := SIGMA_I | SIGMA_X | SIGMA_Y | SIGMA_Z.

#[global] Instance SIGMA_eq_decision : EqDecision SIGMA.
Proof. solve_decision. Defined.

Definition SIGMA_LIST : list SIGMA := [SIGMA_I; SIGMA_X; SIGMA_Y; SIGMA_Z].

(** [SIGMA[name]]: lookup of an enum member by its name. *)
Definition SIGMA_getitem (name : string) : result SIGMA :=
  if bool_decide (name = "I"%string) then Ok SIGMA_I
  else if bool_decide (name = "X"%string) then Ok SIGMA_X
  else if bool_decide (name = "Y"%string) then Ok SIGMA_Y
  else if bool_decide (name = "Z"%string) then Ok SIGMA_Z
  else Raise KeyError.

(** [l.index(x)] *)
Fixpoint list_index {A} `{EqDecision A} (x : A) (l : list A) : result Z :=
  match l with
  | [] => Raise NotInListError
  | y :: l' => if bool_decide (y = x) then Ok 0 else Z.succ <$> list_index x l'
  end.

(** [l[i]], negative subscripts counting from the end. *)
Definition list_getitem {A} (l : list A) (i : Z) : result A :=
  let n := Z.of_nat (length l) in
  let j := if bool_decide (i < 0) then i + n else i in
  if bool_decide (0 ≤ j < n) then
    match l !! Z.to_nat j with
    | Some x => Ok x
    | None => Raise IndexError
    end
  else Raise IndexError.

(** [it.combinations(l, 2)] *)
Fixpoint combinations2 {A} (l : list A) : list (A * A) :=
  match l with
  | [] => []
  | x :: l' => (pair x <$> l') ++ combinations2 l'
  end.

Definition sign (permutation : list Z) : Z :=
  let inversions :=
    sum_list_with (λ '(x, y), if bool_decide (x > y) then 1%nat else 0%nat)
                  (combinations2 permutation) in
  (-1) ^ Z.of_nat inversions.

(** [it.product(range(4), repeat=2)] *)
Definition index_pairs : list (Z * Z) :=
  idx1 ← seqZ 0 4; idx2 ← seqZ 0 4; [(idx1, idx2)].

Definition create_times_table : gmap (Z * Z) (Complex * Z) :=
  foldl (λ table '(idx1, idx2),
           let '(phase, sigma_idx) :=
             if bool_decide (idx1 = 0 ∨ idx2 = 0) then (C1, idx1 + idx2)
             else if bool_decide (idx1 = idx2) then (C1, 0)
             else
               let idx3 := 6 - idx1 - idx2 in
               (Cmul Ci (C_of_Z (sign [idx1; idx2; idx3])), idx3) in
           <[(idx1, idx2) := (phase, sigma_idx)]> table)
        ∅ index_pairs.

Definition TIMES_TABLE : gmap (Z * Z) (Complex * Z) := create_times_table.

(** [d[k]] on a built-in dict *)
Definition table_getitem (d : gmap (Z * Z) (Complex * Z)) (k : Z * Z)
  : result (Complex * Z) :=
  match d !! k with
  | Some v => Ok v
  | None => Raise KeyError
  end.

Record PauliGroupElement : Type := mkPauliGroupElement {
  phase : Complex;
  sigma : SIGMA
}.

#[global] Instance PauliGroupElement_eq_decision : EqDecision PauliGroupElement.
Proof. solve_decision. Defined.

(** [phase in (1, -1, 1j, -1j)] *)
Definition fourth_root (p : Complex) : bool :=
  bool_decide (p ∈ [C1; C_of_Z (-1); Ci; Copp Ci]).

(** The constructor: the generated [__init__] followed by [__post_init__]. *)
Definition PauliGroupElement_new (phase : Complex) (sigma : SIGMA)
  : result PauliGroupElement :=
  if negb (fourth_root phase) then Raise InvalidPhaseError
  else Ok (mkPauliGroupElement phase sigma).

(** [__mul__], branch [isinstance(other, Complex)] *)
Definition group_mul_scalar (self : PauliGroupElement) (other : Complex)
  : result PauliGroupElement :=
  PauliGroupElement_new (Cmul (phase self) other) (sigma self).

(** [__mul__], branch [isinstance(other, PauliGroupElement)] *)
Definition group_mul_group (self other : PauliGroupElement)
  : result PauliGroupElement :=
  let combined_phase := Cmul (phase self) (phase other) in
  self_idx ← list_index (sigma self) SIGMA_LIST;
  other_idx ← list_index (sigma other) SIGMA_LIST;
  '(phase, sigma_idx) ← table_getitem TIMES_TABLE (self_idx, other_idx);
  s ← list_getitem SIGMA_LIST sigma_idx;
  PauliGroupElement_new (Cmul combined_phase phase) s.

(** [__rmul__], branch [isinstance(other, Complex)]: [self * other] *)
Definition group_rmul_scalar (self : PauliGroupElement) (other : Complex)
  : result PauliGroupElement :=
  group_mul_scalar self other.

(** [__neg__]: [-1 * self], which the interpreter resolves to
    [self.__rmul__(-1)] *)
Definition group_neg (self : PauliGroupElement) : result PauliGroupElement :=
  group_rmul_scalar self (C_of_Z (-1)).

(** The generated [__eq__]: the field tuples are compared. *)
Definition group_eq (self other : PauliGroupElement) : bool :=
  bool_decide ((phase self, sigma self) = (phase other, sigma other)).

Definition PauliGroupElement_I : result PauliGroupElement := PauliGroupElement_new C1 SIGMA_I.
Definition PauliGroupElement_X : result PauliGroupElement := PauliGroupElement_new C1 SIGMA_X.
Definition PauliGroupElement_Y : result PauliGroupElement := PauliGroupElement_new C1 SIGMA_Y.
Definition PauliGroupElement_Z : result PauliGroupElement := PauliGroupElement_new C1 SIGMA_Z.

(** ** pauli_algebra.py *)

(** The dataclass field [phase] of a tensor is [tphase] here, the name [phase]
    being taken by the group element's field. *)
Record PauliTensor : Type := mkPauliTensor {
  tphase : Complex;
  tensor : list PauliGroupElement
}.

#[global] Instance PauliTensor_eq_decision : EqDecision PauliTensor.
Proof. solve_decision. Defined.

(** The field defaults: [phase = 1], [tensor = (PauliGroupElement(1, SIGMA.I),)];
    the default factor is built once, when the class body is evaluated. *)
Definition PauliTensor_default : result PauliTensor :=
  g ← PauliGroupElement_new C1 SIGMA_I;
  Ok (mkPauliTensor C1 [g]).

Definition dim (self : PauliTensor) : Z := Z.of_nat (length (tensor self)).

(** [math.prod]: the running product starts at [1]. *)
Definition math_prod (l : list Complex) : Complex := foldl Cmul C1 l.

Definition overall_phase (self : PauliTensor) : Complex :=
  Cmul (tphase self) (math_prod (phase <$> tensor self)).

Definition factor_phase (self : PauliTensor) : result PauliTensor :=
  phaseless ← mapM (λ factor,
                      inv ← Cdiv C1 (phase factor);
                      group_mul_scalar factor inv) (tensor self);
  Ok (mkPauliTensor (overall_phase self) phaseless).

(** [__eq__], branch [isinstance(other, PauliTensor)] *)
Definition tensor_eq (self other : PauliTensor) : result bool :=
  s_factored ← factor_phase self;
  o_factored ← factor_phase other;
  Ok (bool_decide (tphase s_factored = tphase o_factored)
      && bool_decide (tensor s_factored = tensor o_factored)).

(** [__mul__], branch [isinstance(other, Complex)] *)
Definition tensor_mul_scalar (self : PauliTensor) (other : Complex) : PauliTensor :=
  mkPauliTensor (Cmul (tphase self) other) (tensor self).

(** [__rmul__], branch [isinstance(other, Complex)] *)
Definition tensor_rmul_scalar (self : PauliTensor) (other : Complex) : PauliTensor :=
  mkPauliTensor (Cmul (tphase self) other) (tensor self).

(** [__mul__], branch [isinstance(other, PauliTensor)].  The last line,
    [phase * tensor.factor_phase()], has a scalar on the left, so it is
    answered by [__rmul__]. *)
Definition tensor_mul_tensor (self other : PauliTensor) : result PauliTensor :=
  if bool_decide (dim self ≠ dim other) then Raise DimensionMismatchError
  else
    s_simple ← factor_phase self;
    o_simple ← factor_phase other;
    let phase := Cmul (tphase s_simple) (tphase o_simple) in
    factors ← mapM (λ '(s_factor, o_factor), group_mul_group s_factor o_factor)
                   (zip (tensor s_simple) (tensor o_simple));
    let tensor := mkPauliTensor C1 factors in
    factored ← factor_phase tensor;
    Ok (tensor_rmul_scalar factored phase).

(** [__neg__]: [-1 * self] *)
Definition tensor_neg (self : PauliTensor) : PauliTensor :=
  tensor_rmul_scalar self (C_of_Z (-1)).

(** The characters of a [str], each as a one-character [str]. *)
Fixpoint chars (s : string) : list string :=
  match s with
  | EmptyString => []
  | String c s' => String c EmptyString :: chars s'
  end.

Definition PauliTensor_from_str (s : string) : result PauliTensor :=
  factors ← mapM (λ c, sig ← SIGMA_getitem c; PauliGroupElement_new C1 sig) (chars s);
  Ok (mkPauliTensor C1 factors).

(** *** Dicts keyed by tensors

    [PauliTensor] is a frozen dataclass that writes its own [__eq__] and no
    [__hash__]: the decorator then generates [__hash__] from the fields, as
    [hash((self.phase, self.tensor))], and the factors inside the tuple hash
    as [hash((phase, sigma))].  The hashed data is modelled by the tuple itself
    (no collisions). *)
Definition hash_key (t : PauliTensor) : Complex * list (Complex * SIGMA) :=
  (tphase t, (λ g, (phase g, sigma g)) <$> tensor t).

(** The test a dict makes between a stored key and the probed one: equal
    hashes, and then [stored == probe]. *)
Definition key_match (stored probe : PauliTensor) : result bool :=
  if bool_decide (hash_key stored = hash_key probe) then tensor_eq stored probe
  else Ok false.

Definition dict : Type := list (PauliTensor * Complex).

(** [d.get(k)] *)
Fixpoint dict_get (d : dict) (k : PauliTensor) : result (option Complex) :=
  match d with
  | [] => Ok None
  | (k', v) :: d' =>
      b ← key_match k' k;
      if b : bool then Ok (Some v) else dict_get d' k
  end.

(** [d[k] = v]: a present key keeps its place and its stored key object. *)
Fixpoint dict_set (d : dict) (k : PauliTensor) (v : Complex) : result dict :=
  match d with
  | [] => Ok [(k, v)]
  | (k', v') :: d' =>
      b ← key_match k' k;
      if b : bool then Ok ((k', v) :: d')
      else d'' ← dict_set d' k v; Ok ((k', v') :: d'')
  end.

(** [d[k] += v] on a [defaultdict(complex)] or [defaultdict(int)]: a missing
    key starts at zero. *)
Definition defaultdict_iadd (d : dict) (k : PauliTensor) (v : Complex) : result dict :=
  cur ← dict_get d k;
  dict_set d k (Cadd (default C0 cur) v).

(** A dict display [{k1: v1, k2: v2, ...}] *)
Definition dict_display (items : list (PauliTensor * Complex)) : result dict :=
  foldlM (λ d '(k, v), dict_set d k v) [] items.

(** [a == b] on dicts: equal sizes, and every key of [a] is found in [b] with
    an equal value. *)
Definition dict_eq (a b : dict) : result bool :=
  if bool_decide (length a ≠ length b) then Ok false
  else
    foldlM (λ (acc : bool) '(k, v),
              if acc then
                r ← dict_get b k;
                Ok (match r with
                    | Some v' => bool_decide (v = v')
                    | None => false
                    end)
              else Ok false)
           true a.

Record PauliAlgebraElement : Type := mkPauliAlgebraElement {
  coeffs : dict
}.

#[global] Instance PauliAlgebraElement_eq_decision : EqDecision PauliAlgebraElement.
Proof. solve_decision. Defined.

Definition PauliAlgebraElement_from_str (s : string) : result PauliAlgebraElement :=
  tensor ← PauliTensor_from_str s;
  d ← dict_display [(tensor, C1)];
  Ok (mkPauliAlgebraElement d).

Definition simplify (self : PauliAlgebraElement) : result PauliAlgebraElement :=
  new_coeffs ←
    foldlM (λ new_coeffs '(tensor, coeff),
              factored_tensor ← factor_phase tensor;
              let factored_phase := tphase factored_tensor in
              inv ← Cdiv C1 factored_phase;
              defaultdict_iadd new_coeffs (tensor_mul_scalar factored_tensor inv)
                               (Cmul coeff factored_phase))
           [] (coeffs self);
  Ok (mkPauliAlgebraElement new_coeffs).

(** [__eq__], branch [isinstance(other, PauliAlgebraElement)] *)
Definition algebra_eq (self other : PauliAlgebraElement) : result bool :=
  s ← simplify self;
  o ← simplify other;
  dict_eq (coeffs s) (coeffs o).

(** [__add__], branch [isinstance(other, PauliAlgebraElement)] *)
Definition algebra_add (self other : PauliAlgebraElement) : result PauliAlgebraElement :=
  sum_coeffs ←
    foldlM (λ sum_coeffs coeffs,
              foldlM (λ sum_coeffs '(tensor, coeff),
                        defaultdict_iadd sum_coeffs tensor coeff)
                     sum_coeffs coeffs)
           [] [coeffs self; coeffs other];
  Ok (mkPauliAlgebraElement sum_coeffs).

(** [__mul__], branch [isinstance(other, Complex)] *)
Definition algebra_mul_scalar (self : PauliAlgebraElement) (other : Complex)
  : result PauliAlgebraElement :=
  d ← dict_display ((λ '(tensor, coeff), (tensor, Cmul other coeff)) <$> coeffs self);
  Ok (mkPauliAlgebraElement d).

(** [__mul__], branch [isinstance(other, PauliAlgebraElement)];
    [it.product] runs through the right operand's items for each item of the
    left one. *)
Definition algebra_mul_algebra (self other : PauliAlgebraElement)
  : result PauliAlgebraElement :=
  product_coeffs ←
    foldlM (λ product_coeffs '((s_tensor, s_coeff), (o_tensor, o_coeff)),
              key ← tensor_mul_tensor s_tensor o_tensor;
              defaultdict_iadd product_coeffs key (Cmul s_coeff o_coeff))
           [] (s_item ← coeffs self; o_item ← coeffs other; [(s_item, o_item)]);
  Ok (mkPauliAlgebraElement product_coeffs).

(** [__mul__], branch [isinstance(other, PauliTensor)] *)
Definition algebra_mul_tensor (self : PauliAlgebraElement) (other : PauliTensor)
  : result PauliAlgebraElement :=
  other_algebra_elt ← mkPauliAlgebraElement <$> dict_display [(other, C1)];
  algebra_mul_algebra self other_algebra_elt.

(** [__rmul__], branch [isinstance(other, Complex)]: [self * other] *)
Definition algebra_rmul_scalar (self : PauliAlgebraElement) (other : Complex)
  : result PauliAlgebraElement :=
  algebra_mul_scalar self other.

(** [__rmul__], branch [isinstance(other, PauliTensor)]: [self * other] *)
Definition algebra_rmul_tensor (self : PauliAlgebraElement) (other : PauliTensor)
  : result PauliAlgebraElement :=
  algebra_mul_tensor self other.

(** [__neg__]: [-1 * self] *)
Definition algebra_neg (self : PauliAlgebraElement) : result PauliAlgebraElement :=
  algebra_rmul_scalar self (C_of_Z (-1)).

(** *** The operator [*]

    The methods above are the typed branches of [__mul__] and [__rmul__]; the
    methods themselves choose a branch by the class of [other] and answer
    [NotImplemented] ([None] here) otherwise.  [x * y] asks [x.__mul__(y)]
    first and, on [NotImplemented] with operands of different classes, the
    reflected [y.__rmul__(x)]. *)

Inductive value : Type :=
  | VComplex (z : Complex)
  | VGroup (g : PauliGroupElement)
  | VTensor (t : PauliTensor)
  | VAlgebra (a : PauliAlgebraElement).

Definition PauliGroupElement_mul (self : PauliGroupElement) (other : value)
  : result (option PauliGroupElement) :=
  match other with
  | VComplex z => Some <$> group_mul_scalar self z
  | VGroup g => Some <$> group_mul_group self g
  | _ => Ok None
  end.

Definition PauliGroupElement_rmul (self : PauliGroupElement) (other : value)
  : result (option PauliGroupElement) :=
  match other with
  | VComplex z => Some <$> group_rmul_scalar self z
  | _ => Ok None
  end.

Definition PauliTensor_mul (self : PauliTensor) (other : value)
  : result (option PauliTensor) :=
  match other with
  | VComplex z => Ok (Some (tensor_mul_scalar self z))
  | VTensor t => Some <$> tensor_mul_tensor self t
  | _ => Ok None
  end.

Definition PauliTensor_rmul (self : PauliTensor) (other : value)
  : result (option PauliTensor) :=
  match other with
  | VComplex z => Ok (Some (tensor_rmul_scalar self z))
  | _ => Ok None
  end.

Definition PauliAlgebraElement_mul (self : PauliAlgebraElement) (other : value)
  : result (option PauliAlgebraElement) :=
  match other with
  | VComplex z => Some <$> algebra_mul_scalar self z
  | VAlgebra a => Some <$> algebra_mul_algebra self a
  | VTensor t => Some <$> algebra_mul_tensor self t
  | _ => Ok None
  end.

Definition PauliAlgebraElement_rmul (self : PauliAlgebraElement) (other : value)
  : result (option PauliAlgebraElement) :=
  match other with
  | VComplex z => Some <$> algebra_rmul_scalar self z
  | VTensor t => Some <$> algebra_rmul_tensor self t
  | _ => Ok None
  end.

(** [x.__mul__(y)] *)
Definition dunder_mul (x y : value) : result (option value) :=
  match x with
  | VComplex a =>
      match y with
      | VComplex b => Ok (Some (VComplex (Cmul a b)))
      | _ => Ok None
      end
  | VGroup g => fmap (M:=option) VGroup <$> PauliGroupElement_mul g y
  | VTensor t => fmap (M:=option) VTensor <$> PauliTensor_mul t y
  | VAlgebra a => fmap (M:=option) VAlgebra <$> PauliAlgebraElement_mul a y
  end.

(** [y.__rmul__(x)] *)
Definition dunder_rmul (y x : value) : result (option value) :=
  match y with
  | VComplex b =>
      match x with
      | VComplex a => Ok (Some (VComplex (Cmul a b)))
      | _ => Ok None
      end
  | VGroup g => fmap (M:=option) VGroup <$> PauliGroupElement_rmul g x
  | VTensor t => fmap (M:=option) VTensor <$> PauliTensor_rmul t x
  | VAlgebra a => fmap (M:=option) VAlgebra <$> PauliAlgebraElement_rmul a x
  end.

Definition same_class (x y : value) : bool :=
  match x, y with
  | VComplex _, VComplex _ | VGroup _, VGroup _
  | VTensor _, VTensor _ | VAlgebra _, VAlgebra _ => true
  | _, _ => false
  end.

(** [x * y] *)
Definition py_mul (x y : value) : result value :=
  r ← dunder_mul x y;
  match r with
  | Some v => Ok v
  | None =>
      if same_class x y then Raise UnsupportedOperandError
      else
        r' ← dunder_rmul y x;
        match r' with
        | Some v => Ok v
        | None => Raise UnsupportedOperandError
        end
  end.

(** *** Values the classes can hold

    Every [PauliGroupElement] passed [__post_init__], and the class is frozen:
    its phase is one of the four roots.  The records here do not carry that
    fact; these predicates state it. *)

Definition valid_group (g : PauliGroupElement) : bool := fourth_root (phase g).

Definition valid_tensor (t : PauliTensor) : bool := forallb valid_group (tensor t).

Definition valid_algebra (a : PauliAlgebraElement) : bool :=
  forallb (λ item, valid_tensor item.1) (coeffs a).

(** [x == y] between two computations of group elements: both return, and the
    values compare equal. *)
Definition group_results_equal (x y : result PauliGroupElement) : bool :=
  match x, y with
  | Ok a, Ok b => group_eq a b
  | _, _ => false
  end.

(** The position of a label in [SIGMA_LIST]. *)
Definition label_index (s : SIGMA) : Z :=
  match s with
  | SIGMA_I => 0
  | SIGMA_X => 1
  | SIGMA_Y => 2
  | SIGMA_Z => 3
  end.

(** The Levi-Civita symbol on indices among 1, 2, 3. *)
Definition levi_civita (j k l : Z) : Z := ((j - k) * (k - l) * (l - j)) `div` 2.

(** A factor with its local phase removed. *)
Definition dephase (g : PauliGroupElement) : PauliGroupElement :=
  mkPauliGroupElement C1 (sigma g).

(** Phase-factored form: every factor has phase exactly 1. *)
Definition phase_factored (t : PauliTensor) : bool :=
  forallb (λ g, bool_decide (phase g = C1)) (tensor t).

(** [x == y] between two computations of tensors. *)
Definition tensor_results_equal (x y : result PauliTensor) : result bool :=
  a ← x; b ← y; tensor_eq a b.

(** The characters [SIGMA[c]] knows. *)
Definition label_char (c : string) : bool :=
  bool_decide (c ∈ ["I"; "X"; "Y"; "Z"]%string).

(** The three error kinds the documentation names. *)
Definition documented_error (e : error) : bool :=
  match e with
  | InvalidPhaseError | DimensionMismatchError | UnsupportedOperandError => true
  | _ => false
  end.

Definition valid_dict (d : dict) : bool :=
  forallb (λ item, valid_tensor item.1) d.

Definition valid_value (v : value) : bool :=
  match v with
  | VComplex _ => true
  | VGroup g => valid_group g
  | VTensor t => valid_tensor t
  | VAlgebra a => valid_algebra a
  end.

(** Dict operations with keys told apart by their fields alone. *)
Fixpoint raw_get (d : dict) (k : PauliTensor) : option Complex :=
  match d with
  | [] => None
  | (k', v) :: d' => if bool_decide (k' = k) then Some v else raw_get d' k
  end.

Fixpoint raw_set (d : dict) (k : PauliTensor) (v : Complex) : dict :=
  match d with
  | [] => [(k, v)]
  | (k', v') :: d' =>
      if bool_decide (k' = k) then (k', v) :: d' else (k', v') :: raw_set d' k v
  end.

(** [d[k] += v], a missing key starting at zero. *)
Definition accumulate (d : dict) (k : PauliTensor) (v : Complex) : dict :=
  raw_set d k (Cadd (default C0 (raw_get d k)) v).

(** The coefficient map the documentation of [simplify] describes: each pair
    [(t, c)] adds [c * p] under the key [t'] with its phase forced to 1, where
    [t'] is [t] normalized and [p] its phase. *)
Definition simplified_coeffs (d : dict) : dict :=
  foldl (λ new_coeffs '(t, c),
           accumulate new_coeffs (mkPauliTensor C1 (dephase <$> tensor t))
                      (Cmul c (overall_phase t)))
        [] d.

(** [x == y] between two computations of algebra elements. *)
Definition algebra_results_equal (x y : result PauliAlgebraElement) : result bool :=
  a ← x; b ← y; algebra_eq a b.

(** A pair of terms whose tensors have different numbers of factors. *)
Definition dims_differ (pair : (PauliTensor * Complex) * (PauliTensor * Complex)) : bool :=
  bool_decide (dim pair.1.1 ≠ dim pair.2.1).

(** ** String rendering and sort keys *)

(** [PHASE_STR], a dict keyed by numbers: a key is found by numeric equality. *)
Definition PHASE_STR : list (Complex * string) :=
  [(C1, ""); (C_of_Z (-1), "-"); (Ci, "i"); (Copp Ci, "-i")]%string.

(** [PHASE_STR[p]] *)
Definition PHASE_STR_getitem (p : Complex) : result string :=
  match list_find (λ item, item.1 = p) PHASE_STR with
  | Some (_, (_, text)) => Ok text
  | None => Raise KeyError
  end.

(** [SIGMA.value] *)
Definition SIGMA_value (s : SIGMA) : string :=
  match s with
  | SIGMA_I => "I"
  | SIGMA_X => "X"
  | SIGMA_Y => "Y"
  | SIGMA_Z => "Z"
  end.

(** [SIGMA.__str__]; the letter sigma is its two bytes of UTF-8. *)
Definition SIGMA_str (s : SIGMA) : string := ("σ_" +:+ SIGMA_value s)%string.

(** [PauliGroupElement.__str__] *)
Definition group_str (self : PauliGroupElement) : result string :=
  text ← PHASE_STR_getitem (phase self);
  Ok (text +:+ SIGMA_str (sigma self)).

(** [PauliAlgebraElement._str_for_lexicographic]; [str] of an [int] is its
    decimal numeral. *)
Definition str_for_lexicographic (t : PauliTensor) : result string :=
  parts ← mapM (λ factor,
                  idx ← list_index (sigma factor) SIGMA_LIST;
                  Ok (pretty idx)) (tensor t);
  Ok (String.concat "" parts).

(** ** Notions used in the statements *)

(** The number of inversions [sign] counts. *)
Definition inversions (permutation : list Z) : nat :=
  sum_list_with (λ '(x, y), if bool_decide (x > y) then 1%nat else 0%nat)
                (combinations2 permutation).

(** The label and the phase of a product of two sigma matrices. *)
Definition product_label (s1 s2 : SIGMA) : SIGMA :=
  match s1, s2 with
  | SIGMA_I, s | s, SIGMA_I => s
  | SIGMA_X, SIGMA_X | SIGMA_Y, SIGMA_Y | SIGMA_Z, SIGMA_Z => SIGMA_I
  | SIGMA_X, SIGMA_Y | SIGMA_Y, SIGMA_X => SIGMA_Z
  | SIGMA_Y, SIGMA_Z | SIGMA_Z, SIGMA_Y => SIGMA_X
  | SIGMA_Z, SIGMA_X | SIGMA_X, SIGMA_Z => SIGMA_Y
  end.

Definition product_phase (s1 s2 : SIGMA) : Complex :=
  match s1, s2 with
  | SIGMA_X, SIGMA_Y | SIGMA_Y, SIGMA_Z | SIGMA_Z, SIGMA_X => Ci
  | SIGMA_Y, SIGMA_X | SIGMA_Z, SIGMA_Y | SIGMA_X, SIGMA_Z => Copp Ci
  | _, _ => C1
  end.

(** The labels of a tensor's factors, and the phase-1 factors of given labels. *)
Definition labels (t : PauliTensor) : list SIGMA := sigma <$> tensor t.

Definition labelled (l : list SIGMA) : list PauliGroupElement :=
  mkPauliGroupElement C1 <$> l.

(** The tensor of [n] identity factors. *)
Definition identity_tensor (n : nat) : PauliTensor :=
  mkPauliTensor C1 (replicate n (mkPauliGroupElement C1 SIGMA_I)).

(** A dict holds no two keys with the same hash and equal under [==]: its keys
    are pairwise different as field tuples. *)
Definition distinct_keys (d : dict) : Prop := NoDup d.*1.

(** Keys in the form [simplify] produces: phase 1 on the tensor and on every
    factor. *)
Definition normalized_keys (d : dict) : Prop :=
  Forall (λ item, tphase item.1 = C1 ∧ phase_factored item.1 = true) d.

(** * Properties *)

(** ** The exception monad *)

Lemma bind_Ok {A B} (f : A → result B) (a : A) : (Ok a ≫= f) = f a.
Proof. reflexivity. Qed.

Lemma bind_Raise {A B} (f : A → result B) (e : error) : (Raise e ≫= f) = Raise e.
Proof. reflexivity. Qed.

Lemma bind_Ok_inv {A B} (f : A → result B) (m : result A) (b : B) :
  m ≫= f = Ok b → ∃ a, m = Ok a ∧ f a = Ok b.
Proof. destruct m as [a|e]; [|done]. intros H. by exists a. Qed.

Lemma fmap_Ok {A B} (f : A → B) (a : A) : f <$> Ok a = Ok (f a).
Proof. reflexivity. Qed.

(** ** Scalar arithmetic *)

Lemma Complex_eq a b : re a = re b → im a = im b → a = b.
Proof. destruct a, b; simpl; congruence. Qed.

Lemma C1_unfold : C1 = mkC 1%Qc 0%Qc.
Proof. reflexivity. Qed.

Lemma C0_unfold : C0 = mkC 0%Qc 0%Qc.
Proof. reflexivity. Qed.

Lemma Cmul_comm a b : Cmul a b = Cmul b a.
Proof. apply Complex_eq; simpl; ring. Qed.

Lemma Cmul_assoc a b c : Cmul a (Cmul b c) = Cmul (Cmul a b) c.
Proof. apply Complex_eq; simpl; ring. Qed.

Lemma Cmul_1_r a : Cmul a C1 = a.
Proof. apply Complex_eq; rewrite C1_unfold; simpl; ring. Qed.

Lemma Cmul_1_l a : Cmul C1 a = a.
Proof. rewrite Cmul_comm. apply Cmul_1_r. Qed.

Lemma Qc_sum_squares_0 (a b : Qc) : (a * a + b * b = 0)%Qc → a = 0%Qc ∧ b = 0%Qc.
Proof.
  intros H.
  assert (HQ : (a * a + b * b == 0)%Q).
  { apply (f_equal this) in H. unfold Qcplus, Qcmult in H. simpl in H.
    apply Qred_eq_iff in H. rewrite !Qred_correct in H. exact H. }
  destruct a as [[na da] ca], b as [[nb db] cb].
  unfold Qeq in HQ. simpl in HQ.
  split; apply Qc_is_canon; unfold Qeq; simpl; nia.
Qed.

Lemma Cdiv_1_nonzero p : p ≠ C0 → ∃ q, Cdiv C1 p = Ok q ∧ Cmul p q = C1.
Proof.
  intros Hp. unfold Cdiv. rewrite bool_decide_eq_false_2 by done.
  eexists. split; [reflexivity|].
  assert (Hn : (re p * re p + im p * im p)%Qc ≠ 0%Qc).
  { intros [H1 H2]%Qc_sum_squares_0. apply Hp, Complex_eq; done. }
  apply Complex_eq; rewrite C1_unfold; simpl; field; exact Hn.
Qed.

Lemma Cdiv_zero a : Cdiv a C0 = Raise ZeroDivisionError.
Proof. unfold Cdiv. by rewrite bool_decide_eq_true_2. Qed.

(** ** The group layer *)

Lemma fourth_root_cases p :
  fourth_root p = true → p = C1 ∨ p = C_of_Z (-1) ∨ p = Ci ∨ p = Copp Ci.
Proof.
  unfold fourth_root. intros H%bool_decide_eq_true.
  rewrite !elem_of_cons in H. destruct H as [?|[?|[?|[?|H]]]]; auto.
  by apply elem_of_nil in H.
Qed.

Lemma PauliGroupElement_new_Ok p s :
  fourth_root p = true → PauliGroupElement_new p s = Ok (mkPauliGroupElement p s).
Proof. intros H. unfold PauliGroupElement_new. by rewrite H. Qed.

Lemma PauliGroupElement_new_Raise p s :
  fourth_root p = false → PauliGroupElement_new p s = Raise InvalidPhaseError.
Proof. intros H. unfold PauliGroupElement_new. by rewrite H. Qed.

Lemma PauliGroupElement_new_inv p s g :
  PauliGroupElement_new p s = Ok g →
  g = mkPauliGroupElement p s ∧ valid_group g = true.
Proof.
  unfold PauliGroupElement_new, valid_group.
  destruct (fourth_root p) eqn:E; simpl; [|done].
  intros [= <-]. done.
Qed.

(** Case analysis on a valid group element: four phases, four labels. *)
Ltac group_cases g H :=
  let p := fresh "p" in
  let s := fresh "s" in
  destruct g as [p s]; unfold valid_group in H; simpl in H;
  apply fourth_root_cases in H;
  destruct H as [ -> | [ -> | [ -> | -> ] ] ]; destruct s.

Lemma group_mul_group_valid a b :
  valid_group a = true → valid_group b = true →
  ∃ r, group_mul_group a b = Ok r ∧ valid_group r = true.
Proof.
  intros Ha Hb. group_cases a Ha; group_cases b Hb;
    (eexists; split; [reflexivity | compute_done]).
Qed.

Lemma label_index_spec s : list_index s SIGMA_LIST = Ok (label_index s).
Proof. by destruct s. Qed.

Lemma TIMES_TABLE_levi_civita j k :
  1 ≤ j ≤ 3 → 1 ≤ k ≤ 3 → j ≠ k →
  TIMES_TABLE !! (j, k)
  = Some (Cmul Ci (C_of_Z (levi_civita j k (6 - j - k))), 6 - j - k).
Proof.
  intros Hj Hk Hjk.
  assert (Ej : j = 1 ∨ j = 2 ∨ j = 3) by lia.
  assert (Ek : k = 1 ∨ k = 2 ∨ k = 3) by lia.
  destruct Ej as [ -> | [ -> | -> ] ]; destruct Ek as [ -> | [ -> | -> ] ];
    try done; compute_done.
Qed.

(** C6.  Group-element multiplication follows
    sigma_j * sigma_k = i * epsilon_jkl * sigma_l and the identity cases:
    every base element squares to I, I is a two-sided unit, X*Y == i*Z,
    Y*Z == i*X, Z*X == i*Y, two distinct non-identity base elements
    anticommute, and the product of any two group elements has phase
    a.phase * b.phase * table_phase and the label the table gives. *)
Theorem group_mul_pauli_relation :
  (∀ j k, 1 ≤ j ≤ 3 → 1 ≤ k ≤ 3 → j ≠ k →
     TIMES_TABLE !! (j, k)
     = Some (Cmul Ci (C_of_Z (levi_civita j k (6 - j - k))), 6 - j - k))
  ∧ (∀ s, let g := mkPauliGroupElement C1 s in
          let I := mkPauliGroupElement C1 SIGMA_I in
          group_results_equal (group_mul_group g g) (Ok I) = true
          ∧ group_results_equal (group_mul_group g I) (group_mul_group I g) = true
          ∧ group_results_equal (group_mul_group I g) (Ok g) = true)
  ∧ (let X := mkPauliGroupElement C1 SIGMA_X in
     let Y := mkPauliGroupElement C1 SIGMA_Y in
     let Z := mkPauliGroupElement C1 SIGMA_Z in
     group_results_equal (group_mul_group X Y) (group_rmul_scalar Z Ci) = true
     ∧ group_results_equal (group_mul_group Y Z) (group_rmul_scalar X Ci) = true
     ∧ group_results_equal (group_mul_group Z X) (group_rmul_scalar Y Ci) = true)
  ∧ (∀ s1 s2, s1 ≠ s2 → s1 ≠ SIGMA_I → s2 ≠ SIGMA_I →
       let g1 := mkPauliGroupElement C1 s1 in
       let g2 := mkPauliGroupElement C1 s2 in
       group_results_equal (group_mul_group g1 g2)
                           (group_mul_group g2 g1 ≫= group_neg) = true)
  ∧ (∀ a b, valid_group a = true → valid_group b = true →
       ∃ table_phase table_idx table_label,
         TIMES_TABLE !! (label_index (sigma a), label_index (sigma b))
         = Some (table_phase, table_idx)
         ∧ list_getitem SIGMA_LIST table_idx = Ok table_label
         ∧ group_mul_group a b
           = Ok (mkPauliGroupElement
                   (Cmul (Cmul (phase a) (phase b)) table_phase) table_label)).
Proof.
  split; [exact TIMES_TABLE_levi_civita|].
  split; [intros []; repeat split; compute_done|].
  split; [repeat split; compute_done|].
  split; [intros [] []; try done; intros; compute_done|].
  intros a b Ha Hb.
  destruct (group_mul_group_valid a b Ha Hb) as (r & Hr & Hv).
  unfold group_mul_group in Hr |- *.
  rewrite !label_index_spec, !bind_Ok in Hr |- *.
  apply bind_Ok_inv in Hr as ([tp ti] & Ht & Hr).
  apply bind_Ok_inv in Hr as (tl & Hl & Hr).
  rewrite Ht, bind_Ok, Hl, bind_Ok.
  exists tp, ti, tl. split; [|split; [done|]].
  - unfold table_getitem in Ht. destruct (TIMES_TABLE !! _); congruence.
  - destruct (PauliGroupElement_new_inv _ _ _ Hr) as [-> _]. exact Hr.
Qed.

(** C6 at a concrete input: indices 1 and 2, the labels X and Y, and the
    elements i*X and -Y. *)
Lemma group_mul_pauli_relation_witness :
  TIMES_TABLE !! (1, 2) = Some (Cmul Ci (C_of_Z (levi_civita 1 2 3)), 3)
  ∧ group_results_equal
      (group_mul_group (mkPauliGroupElement C1 SIGMA_X) (mkPauliGroupElement C1 SIGMA_Y))
      (group_mul_group (mkPauliGroupElement C1 SIGMA_Y) (mkPauliGroupElement C1 SIGMA_X)
       ≫= group_neg) = true
  ∧ ∃ table_phase table_idx table_label,
      TIMES_TABLE !! (1, 2) = Some (table_phase, table_idx)
      ∧ list_getitem SIGMA_LIST table_idx = Ok table_label
      ∧ group_mul_group (mkPauliGroupElement Ci SIGMA_X)
                        (mkPauliGroupElement (C_of_Z (-1)) SIGMA_Y)
        = Ok (mkPauliGroupElement (Cmul (Cmul Ci (C_of_Z (-1))) table_phase) table_label).
Proof.
  destruct group_mul_pauli_relation as (H1 & _ & _ & H4 & H5).
  split; [apply (H1 1 2); lia|].
  split; [apply (H4 SIGMA_X SIGMA_Y); discriminate|].
  apply (H5 (mkPauliGroupElement Ci SIGMA_X) (mkPauliGroupElement (C_of_Z (-1)) SIGMA_Y));
    reflexivity.
Defined.



(** ** The tensor layer *)

Lemma mapM_Ok_fmap {A B} (f : A → result B) (g : A → B) (l : list A) :
  Forall (λ x, f x = Ok (g x)) l → mapM f l = Ok (g <$> l).
Proof.
  induction 1 as [|x l Hx _ IH]; [reflexivity|].
  cbn [mapM]. rewrite Hx, bind_Ok. fold (mapM f l). rewrite IH. reflexivity.
Qed.

Lemma valid_tensor_Forall t :
  valid_tensor t = true ↔ Forall (λ g, valid_group g = true) (tensor t).
Proof.
  unfold valid_tensor. induction (tensor t) as [|g l IH]; simpl.
  - split; [constructor|done].
  - rewrite andb_true_iff, IH, Forall_cons. done.
Qed.

Lemma factor_dephase g :
  valid_group g = true →
  (inv ← Cdiv C1 (phase g); group_mul_scalar g inv) = Ok (dephase g).
Proof. intros H. group_cases g H; compute_done. Qed.

Lemma factor_phase_valid t :
  valid_tensor t = true →
  factor_phase t = Ok (mkPauliTensor (overall_phase t) (dephase <$> tensor t)).
Proof.
  intros H%valid_tensor_Forall. unfold factor_phase.
  rewrite (mapM_Ok_fmap _ dephase); [reflexivity|].
  eapply Forall_impl; [exact H|]. intros g Hg. by apply factor_dephase.
Qed.

Lemma mapM_Ok_Forall2 {A B} (f : A → result B) (l : list A) (k : list B) :
  mapM f l = Ok k ↔ Forall2 (λ x y, f x = Ok y) l k.
Proof.
  split.
  - revert k. induction l as [|x l IH]; intros k.
    + intros [= <-]. constructor.
    + cbn [mapM]. fold (mapM f l).
      intros (y & Hy & H)%bind_Ok_inv.
      apply bind_Ok_inv in H as (k' & Hk' & [= <-]).
      constructor; auto.
  - induction 1 as [|x y l k Hx _ IH]; [reflexivity|].
    cbn [mapM]. fold (mapM f l). by rewrite Hx, bind_Ok, IH.
Qed.

Lemma mapM_Ok_total {A B} (f : A → result B) (P : B → Prop) (l : list A) :
  Forall (λ x, ∃ y, f x = Ok y ∧ P y) l →
  ∃ k, mapM f l = Ok k ∧ Forall P k ∧ length k = length l.
Proof.
  induction 1 as [|x l (y & Hy & Py) _ (k & Hk & Pk & Hlen)].
  - exists []. repeat split; constructor.
  - exists (y :: k). cbn [mapM]. fold (mapM f l). rewrite Hy, bind_Ok, Hk.
    repeat split; [by constructor | simpl; by rewrite Hlen].
Qed.

Lemma dephase_valid g : valid_group (dephase g) = true.
Proof. reflexivity. Qed.

Lemma dephased_valid p (l : list PauliGroupElement) :
  valid_tensor (mkPauliTensor p (dephase <$> l)) = true.
Proof.
  apply valid_tensor_Forall. simpl. apply Forall_fmap, Forall_true.
  intros g. apply dephase_valid.
Qed.

Lemma dephased_phase_factored p (l : list PauliGroupElement) :
  phase_factored (mkPauliTensor p (dephase <$> l)) = true.
Proof.
  unfold phase_factored. cbn [tensor]. induction l as [|g l IH]; [reflexivity|].
  rewrite fmap_cons. cbn [forallb]. rewrite IH.
  by rewrite bool_decide_eq_true_2.
Qed.

Lemma dephase_fmap_idemp (l : list PauliGroupElement) :
  dephase <$> (dephase <$> l) = dephase <$> l.
Proof. rewrite <- list_fmap_compose. by apply list_fmap_ext. Qed.

Lemma math_prod_dephased (l : list PauliGroupElement) :
  math_prod (phase <$> (dephase <$> l)) = C1.
Proof.
  unfold math_prod. generalize C1 at 1 2 as acc.
  induction l as [|g l IH]; intros acc; [reflexivity|].
  rewrite !fmap_cons. cbn [foldl]. change (phase (dephase g)) with C1.
  rewrite Cmul_1_r. apply IH.
Qed.

Lemma overall_phase_dephased p (l : list PauliGroupElement) :
  overall_phase (mkPauliTensor p (dephase <$> l)) = p.
Proof. unfold overall_phase. simpl. by rewrite math_prod_dephased, Cmul_1_r. Qed.

Lemma factor_phase_dephased p (l : list PauliGroupElement) :
  factor_phase (mkPauliTensor p (dephase <$> l))
  = Ok (mkPauliTensor p (dephase <$> l)).
Proof.
  rewrite factor_phase_valid by apply dephased_valid.
  by rewrite overall_phase_dephased; simpl; rewrite dephase_fmap_idemp.
Qed.

Lemma tensor_eq_valid a b :
  valid_tensor a = true → valid_tensor b = true →
  tensor_eq a b
  = Ok (bool_decide (overall_phase a = overall_phase b)
        && bool_decide (dephase <$> tensor a = dephase <$> tensor b)).
Proof.
  intros Ha Hb. unfold tensor_eq.
  by rewrite (factor_phase_valid a Ha), (factor_phase_valid b Hb), !bind_Ok.
Qed.

Lemma tensor_eq_refl a : valid_tensor a = true → tensor_eq a a = Ok true.
Proof.
  intros Ha. rewrite tensor_eq_valid by done.
  by rewrite !bool_decide_eq_true_2.
Qed.



Lemma tensor_mul_tensor_valid a b :
  valid_tensor a = true → valid_tensor b = true → dim a = dim b →
  ∃ prods,
    mapM (λ '(s_factor, o_factor), group_mul_group s_factor o_factor)
         (zip (dephase <$> tensor a) (dephase <$> tensor b)) = Ok prods
    ∧ Forall (λ p, valid_group p = true) prods
    ∧ length prods = length (tensor a)
    ∧ tensor_mul_tensor a b
      = Ok (mkPauliTensor
              (Cmul (Cmul C1 (math_prod (phase <$> prods)))
                    (Cmul (overall_phase a) (overall_phase b)))
              (dephase <$> prods)).
Proof.
  intros Ha Hb Hdim.
  destruct (mapM_Ok_total
              (λ '(s_factor, o_factor), group_mul_group s_factor o_factor)
              (λ p, valid_group p = true)
              (zip (dephase <$> tensor a) (dephase <$> tensor b)))
    as (prods & Hprods & Hvalid & Hlen).
  { apply Forall_forall. intros [x y] Hin.
    apply (group_mul_group_valid x y).
    - apply elem_of_zip_l, list_elem_of_fmap in Hin as (g & -> & _).
      apply dephase_valid.
    - apply elem_of_zip_r, list_elem_of_fmap in Hin as (g & -> & _).
      apply dephase_valid. }
  exists prods. repeat split; try done.
  - rewrite Hlen, length_zip, !length_fmap.
    unfold dim in Hdim. lia.
  - unfold tensor_mul_tensor.
    rewrite bool_decide_eq_false_2 by (intros H; by apply H).
    rewrite (factor_phase_valid a Ha), (factor_phase_valid b Hb), !bind_Ok.
    cbn [tensor tphase]. rewrite Hprods, bind_Ok.
    rewrite factor_phase_valid by by apply valid_tensor_Forall.
    reflexivity.
Qed.

Lemma tensor_mul_tensor_mismatch a b :
  dim a ≠ dim b → tensor_mul_tensor a b = Raise DimensionMismatchError.
Proof. intros H. unfold tensor_mul_tensor. by rewrite bool_decide_eq_true_2. Qed.




(** *** Construction from a label string *)

Lemma length_chars s : length (chars s) = String.length s.
Proof. induction s as [|c s IH]; simpl; congruence. Qed.

Lemma char_factor_Ok c :
  label_char c = true →
  ∃ g, (sig ← SIGMA_getitem c; PauliGroupElement_new C1 sig) = Ok g
       ∧ valid_group g = true.
Proof.
  unfold label_char. intros H%bool_decide_eq_true.
  rewrite !elem_of_cons in H.
  destruct H as [ -> | [ -> | [ -> | [ -> | H ] ] ] ];
    [| | | | by apply elem_of_nil in H]; (eexists; split; reflexivity).
Qed.

Lemma char_factor_Raise c :
  label_char c = false →
  (sig ← SIGMA_getitem c; PauliGroupElement_new C1 sig) = Raise KeyError.
Proof.
  unfold label_char. intros H%bool_decide_eq_false.
  rewrite !elem_of_cons in H.
  unfold SIGMA_getitem.
  repeat (rewrite bool_decide_eq_false_2; [|intros ->; apply H; auto 6]).
  reflexivity.
Qed.

Lemma from_str_total s :
  if forallb label_char (chars s)
  then ∃ r, PauliTensor_from_str s = Ok r
            ∧ length (tensor r) = String.length s
            ∧ valid_tensor r = true
  else PauliTensor_from_str s = Raise KeyError.
Proof.
  unfold PauliTensor_from_str. rewrite <- length_chars.
  induction (chars s) as [|c l IH]; cbn [forallb mapM].
  - exists (mkPauliTensor C1 []). done.
  - fold (mapM (λ c, sig ← SIGMA_getitem c; PauliGroupElement_new C1 sig) l).
    destruct (label_char c) eqn:Ec; cbn [andb].
    + destruct (char_factor_Ok c Ec) as (g & Hg & Hv). rewrite Hg, bind_Ok.
      destruct (forallb label_char l).
      * destruct IH as (r & Hr & Hlen & Hvalid).
        apply bind_Ok_inv in Hr as (k & Hk & [= <-]).
        rewrite Hk, !bind_Ok.
        exists (mkPauliTensor C1 (g :: k)). repeat split.
        -- simpl in *. by rewrite Hlen.
        -- unfold valid_tensor in *. simpl in *. by rewrite Hv, Hvalid.
      * destruct (mapM _ l); [discriminate IH|].
        rewrite !bind_Raise in *. exact IH.
    + by rewrite char_factor_Raise, bind_Raise.
Qed.




(** ** Dicts keyed by tensors *)

Lemma hash_key_inj t1 t2 : hash_key t1 = hash_key t2 → t1 = t2.
Proof.
  destruct t1 as [p1 l1], t2 as [p2 l2]. unfold hash_key. cbn [tphase tensor].
  intros [= -> H]. f_equal.
  revert l2 H. induction l1 as [|[q1 s1] l1 IH]; intros [|[q2 s2] l2]; try done.
  rewrite !fmap_cons. intros [= -> -> H]. f_equal. by apply IH.
Qed.

Lemma key_match_valid stored probe :
  valid_tensor stored = true →
  key_match stored probe = Ok (bool_decide (stored = probe)).
Proof.
  intros Hv. unfold key_match. case_bool_decide as Hh.
  - apply hash_key_inj in Hh as <-.
    by rewrite tensor_eq_refl, bool_decide_eq_true_2.
  - rewrite bool_decide_eq_false_2; [done|]. by intros ->.
Qed.

Lemma valid_dict_cons k v d :
  valid_dict ((k, v) :: d) = true ↔ valid_tensor k = true ∧ valid_dict d = true.
Proof. unfold valid_dict. cbn [forallb fst]. apply andb_true_iff. Qed.

Lemma dict_get_valid d k :
  valid_dict d = true → dict_get d k = Ok (raw_get d k).
Proof.
  induction d as [|[k' v] d IH]; [done|].
  intros [Hk Hd]%valid_dict_cons. cbn [dict_get raw_get].
  rewrite key_match_valid, bind_Ok by done.
  case_bool_decide; [done|]. by apply IH.
Qed.

Lemma dict_set_valid d k v :
  valid_dict d = true → dict_set d k v = Ok (raw_set d k v).
Proof.
  induction d as [|[k' v'] d IH]; [done|].
  intros [Hk Hd]%valid_dict_cons. cbn [dict_set raw_set].
  rewrite key_match_valid, bind_Ok by done.
  case_bool_decide; [done|]. by rewrite IH, bind_Ok.
Qed.

Lemma raw_set_valid d k v :
  valid_dict d = true → valid_tensor k = true → valid_dict (raw_set d k v) = true.
Proof.
  intros Hd Hk. induction d as [|[k' v'] d IH]; cbn [raw_set].
  - by apply valid_dict_cons.
  - apply valid_dict_cons in Hd as [Hk' Hd].
    case_bool_decide; apply valid_dict_cons; auto.
Qed.

Lemma defaultdict_iadd_valid d k v :
  valid_dict d = true → defaultdict_iadd d k v = Ok (accumulate d k v).
Proof.
  intros Hd. unfold defaultdict_iadd, accumulate.
  by rewrite dict_get_valid, bind_Ok, dict_set_valid.
Qed.

Lemma accumulate_valid d k v :
  valid_dict d = true → valid_tensor k = true → valid_dict (accumulate d k v) = true.
Proof. intros. by apply raw_set_valid. Qed.

Lemma phase_factored_fixed t :
  phase_factored t = true →
  valid_tensor t = true
  ∧ dephase <$> tensor t = tensor t
  ∧ overall_phase t = tphase t.
Proof.
  destruct t as [p l]. unfold phase_factored, valid_tensor, overall_phase, math_prod.
  cbn [tensor tphase]. intros H.
  assert (Hl : Forall (λ g, phase g = C1) l).
  { induction l as [|g l IH]; [constructor|].
    cbn [forallb] in H. apply andb_true_iff in H as [Hg%bool_decide_eq_true Hl].
    constructor; auto. }
  clear H. repeat split.
  - induction Hl as [|g l Hg _ IH]; [done|].
    cbn [forallb]. rewrite IH. unfold valid_group. by rewrite Hg.
  - induction Hl as [|[q s] l Hg _ IH]; [done|].
    rewrite fmap_cons, IH. simpl in Hg. by subst q.
  - assert (E : ∀ acc, foldl Cmul acc (phase <$> l) = acc).
    { induction Hl as [|g l Hg _ IH]; intros acc; [done|].
      rewrite fmap_cons. cbn [foldl]. by rewrite Hg, Cmul_1_r, IH. }
    by rewrite E, Cmul_1_r.
Qed.




(** ** The algebra layer *)

Lemma foldlM_Ok_foldl {A B} (f : B → A → result B) (g : B → A → B)
      (Inv : B → Prop) (P : A → Prop) (l : list A) (acc : B) :
  (∀ acc x, Inv acc → P x → f acc x = Ok (g acc x) ∧ Inv (g acc x)) →
  Inv acc → Forall P l →
  foldlM f acc l = Ok (foldl g acc l) ∧ Inv (foldl g acc l).
Proof.
  intros Hstep Hacc Hl. revert acc Hacc.
  induction Hl as [|x l Hx _ IH]; intros acc Hacc; [done|].
  destruct (Hstep acc x Hacc Hx) as [E I].
  cbn [foldlM foldl]. rewrite E, bind_Ok. by apply IH.
Qed.

Lemma foldlM_first_failure {A B} (f : B → A → result B)
      (Inv : B → Prop) (P : A → Prop) (bad : A → bool) (e : error)
      (l : list A) (acc : B) :
  (∀ acc x, Inv acc → P x → bad x = false → ∃ acc', f acc x = Ok acc' ∧ Inv acc') →
  (∀ acc x, Inv acc → P x → bad x = true → f acc x = Raise e) →
  Inv acc → Forall P l →
  if existsb bad l then foldlM f acc l = Raise e
  else ∃ r, foldlM f acc l = Ok r ∧ Inv r.
Proof.
  intros Hgood Hbad Hacc Hl. revert acc Hacc.
  induction Hl as [|x l Hx _ IH]; intros acc Hacc; cbn [existsb foldlM].
  - by exists acc.
  - destruct (bad x) eqn:Ex; cbn [orb].
    + by rewrite (Hbad acc x Hacc Hx Ex).
    + destruct (Hgood acc x Hacc Hx Ex) as (acc' & E & I).
      rewrite E, bind_Ok. by apply IH.
Qed.

Lemma valid_dict_Forall d :
  valid_dict d = true ↔ Forall (λ item, valid_tensor item.1 = true) d.
Proof.
  induction d as [|[k v] d IH].
  - split; [constructor|done].
  - rewrite valid_dict_cons, IH, Forall_cons. done.
Qed.

Lemma simplify_step acc t c :
  valid_dict acc = true → valid_tensor t = true → overall_phase t ≠ C0 →
  (factored_tensor ← factor_phase t;
   let factored_phase := tphase factored_tensor in
   inv ← Cdiv C1 factored_phase;
   defaultdict_iadd acc (tensor_mul_scalar factored_tensor inv)
                    (Cmul c factored_phase))
  = Ok (accumulate acc (mkPauliTensor C1 (dephase <$> tensor t))
                   (Cmul c (overall_phase t))).
Proof.
  intros Hacc Ht Hp.
  rewrite (factor_phase_valid t Ht), bind_Ok. cbn [tphase].
  destruct (Cdiv_1_nonzero _ Hp) as (q & Hq & Hone).
  rewrite Hq, bind_Ok. unfold tensor_mul_scalar. cbn [tphase tensor].
  rewrite Hone. by apply defaultdict_iadd_valid.
Qed.

Lemma simplify_valid a :
  valid_algebra a = true →
  Forall (λ item, overall_phase item.1 ≠ C0) (coeffs a) →
  simplify a = Ok (mkPauliAlgebraElement (simplified_coeffs (coeffs a)))
  ∧ valid_dict (simplified_coeffs (coeffs a)) = true.
Proof.
  intros Hv Hp. unfold simplify, simplified_coeffs.
  match goal with
  | |- (foldlM ?f [] _ ≫= _) = _ (_ (foldl ?g [] _)) ∧ _ =>
      edestruct (foldlM_Ok_foldl f g
                   (λ d, valid_dict d = true)
                   (λ item, valid_tensor item.1 = true ∧ overall_phase item.1 ≠ C0)
                   (coeffs a) []) as [E I]
  end.
  - intros acc [t c] Hacc [Ht Hne]. split.
    + by apply simplify_step.
    + apply accumulate_valid; [done|apply dephased_valid].
  - done.
  - apply Forall_and. split; [|done]. by apply valid_dict_Forall.
  - by rewrite E, bind_Ok.
Qed.




Lemma dict_display_valid items :
  valid_dict items = true →
  ∃ d, dict_display items = Ok d ∧ valid_dict d = true.
Proof.
  intros Hv. unfold dict_display.
  edestruct (foldlM_Ok_foldl
               (λ d '(k, v), dict_set d k v)
               (λ d '(k, v), raw_set d k v)
               (λ d, valid_dict d = true)
               (λ item : PauliTensor * Complex, valid_tensor item.1 = true)
               items []) as [E I]; [|done|by apply valid_dict_Forall|eauto].
  intros acc [k v] Hacc Hk. split; [by apply dict_set_valid | by apply raw_set_valid].
Qed.

Lemma iadd_all_valid acc d :
  valid_dict acc = true → valid_dict d = true →
  ∃ r, foldlM (λ sum_coeffs '(tensor, coeff),
                 defaultdict_iadd sum_coeffs tensor coeff) acc d = Ok r
       ∧ valid_dict r = true.
Proof.
  intros Hacc Hd.
  edestruct (foldlM_Ok_foldl
               (λ sum_coeffs '(tensor, coeff),
                  defaultdict_iadd sum_coeffs tensor coeff)
               (λ sum_coeffs '(tensor, coeff), accumulate sum_coeffs tensor coeff)
               (λ d, valid_dict d = true)
               (λ item : PauliTensor * Complex, valid_tensor item.1 = true)
               d acc) as [E I]; [|done|by apply valid_dict_Forall|eauto].
  intros a [k v] Ha Hk. split; [by apply defaultdict_iadd_valid | by apply accumulate_valid].
Qed.

Lemma algebra_add_valid A B :
  valid_algebra A = true → valid_algebra B = true →
  ∃ S, algebra_add A B = Ok S ∧ valid_algebra S = true.
Proof.
  intros HA HB. unfold algebra_add. cbn [foldlM].
  destruct (iadd_all_valid [] (coeffs A)) as (r1 & E1 & V1); [done|done|].
  rewrite E1, bind_Ok.
  destruct (iadd_all_valid r1 (coeffs B)) as (r2 & E2 & V2); [done|done|].
  rewrite E2, !bind_Ok. eauto.
Qed.

Lemma algebra_mul_scalar_valid A z :
  valid_algebra A = true →
  ∃ R, algebra_mul_scalar A z = Ok R ∧ valid_algebra R = true.
Proof.
  intros HA. unfold algebra_mul_scalar.
  destruct (dict_display_valid
              ((λ '(tensor, coeff), (tensor, Cmul z coeff)) <$> coeffs A))
    as (d & E & V).
  { apply valid_dict_Forall, Forall_fmap.
    apply valid_dict_Forall in HA. eapply Forall_impl; [exact HA|].
    by intros [k v]. }
  rewrite E, bind_Ok. eauto.
Qed.

Lemma tensor_eq_total a b :
  valid_tensor a = true → valid_tensor b = true →
  ∃ r, tensor_eq a b = Ok r ∧ (dim a ≠ dim b → r = false).
Proof.
  intros Ha Hb. rewrite tensor_eq_valid by done.
  eexists. split; [reflexivity|]. intros Hdim.
  apply andb_false_iff. right. apply bool_decide_eq_false_2.
  intros E. apply Hdim. unfold dim.
  apply (f_equal length) in E. rewrite !length_fmap in E. by rewrite E.
Qed.

Lemma term_pairs_elem (A B : dict) (pair : (PauliTensor * Complex) * (PauliTensor * Complex)) :
  pair ∈ (s_item ← A; o_item ← B; [(s_item, o_item)]) ↔ pair.1 ∈ A ∧ pair.2 ∈ B.
Proof.
  rewrite list_elem_of_bind. split.
  - intros (x & Hin & Hx). apply list_elem_of_bind in Hin as (y & Hin & Hy).
    apply list_elem_of_singleton in Hin as ->. done.
  - intros [H1 H2]. exists pair.1. split; [|done].
    apply list_elem_of_bind. exists pair.2. split; [|done].
    destruct pair. by apply list_elem_of_singleton.
Qed.

Lemma term_pairs_mismatch (A B : dict) :
  existsb dims_differ (s_item ← A; o_item ← B; [(s_item, o_item)]) = true
  ↔ ∃ s o, s ∈ A.*1 ∧ o ∈ B.*1 ∧ dim s ≠ dim o.
Proof.
  rewrite existsb_exists. split.
  - intros (pair & Hin%list_elem_of_In%term_pairs_elem & Hd%bool_decide_eq_true).
    destruct Hin as [H1 H2]. exists pair.1.1, pair.2.1.
    repeat split; [by apply list_elem_of_fmap_2 | by apply list_elem_of_fmap_2 | done].
  - intros (s & o & (x & -> & Hx)%list_elem_of_fmap & (y & -> & Hy)%list_elem_of_fmap & Hd).
    exists (x, y). split.
    + by apply list_elem_of_In, term_pairs_elem.
    + by apply bool_decide_eq_true_2.
Qed.

Lemma algebra_mul_algebra_cases A B :
  valid_algebra A = true → valid_algebra B = true →
  if existsb dims_differ (s_item ← coeffs A; o_item ← coeffs B; [(s_item, o_item)])
  then algebra_mul_algebra A B = Raise DimensionMismatchError
  else ∃ R, algebra_mul_algebra A B = Ok R ∧ valid_algebra R = true.
Proof.
  intros HA HB. unfold algebra_mul_algebra.
  match goal with
  | |- context [foldlM ?f [] ?l] =>
      pose proof (foldlM_first_failure f
                    (λ d, valid_dict d = true)
                    (λ pair, valid_tensor pair.1.1 = true ∧ valid_tensor pair.2.1 = true)
                    dims_differ DimensionMismatchError l []) as H
  end.
  destruct (existsb dims_differ _).
  - rewrite H; [done| | |done|].
    + intros acc [[s sc] [o oc]] Hacc [Hs Ho] Hd%bool_decide_eq_false.
      destruct (tensor_mul_tensor_valid s o Hs Ho) as (prods & _ & _ & _ & E).
      { destruct (decide (dim s = dim o)); [done|by destruct Hd]. }
      rewrite E, bind_Ok, defaultdict_iadd_valid by done.
      eexists. split; [done|]. apply accumulate_valid; [done|apply dephased_valid].
    + intros acc [[s sc] [o oc]] Hacc _ Hd%bool_decide_eq_true.
      by rewrite tensor_mul_tensor_mismatch.
    + apply Forall_forall. intros pair [H1 H2]%term_pairs_elem.
      apply valid_dict_Forall in HA, HB.
      rewrite Forall_forall in HA, HB. split; [by apply HA | by apply HB].
  - destruct H as (r & E & V); [| |done| |].
    + intros acc [[s sc] [o oc]] Hacc [Hs Ho] Hd%bool_decide_eq_false.
      destruct (tensor_mul_tensor_valid s o Hs Ho) as (prods & _ & _ & _ & E).
      { destruct (decide (dim s = dim o)); [done|by destruct Hd]. }
      rewrite E, bind_Ok, defaultdict_iadd_valid by done.
      eexists. split; [done|]. apply accumulate_valid; [done|apply dephased_valid].
    + intros acc [[s sc] [o oc]] Hacc _ Hd%bool_decide_eq_true.
      by rewrite tensor_mul_tensor_mismatch.
    + apply Forall_forall. intros pair [H1 H2]%term_pairs_elem.
      apply valid_dict_Forall in HA, HB.
      rewrite Forall_forall in HA, HB. split; [by apply HA | by apply HB].
    + rewrite E, bind_Ok. eauto.
Qed.

(** *** The operator [*] on the library's classes *)

Lemma py_mul_tensor_tensor a b :
  py_mul (VTensor a) (VTensor b) = VTensor <$> tensor_mul_tensor a b.
Proof. unfold py_mul, dunder_mul, PauliTensor_mul. by destruct (tensor_mul_tensor a b). Qed.

Lemma py_mul_algebra_algebra A B :
  py_mul (VAlgebra A) (VAlgebra B) = VAlgebra <$> algebra_mul_algebra A B.
Proof.
  unfold py_mul, dunder_mul, PauliAlgebraElement_mul.
  by destruct (algebra_mul_algebra A B).
Qed.

Lemma py_mul_algebra_tensor A t :
  py_mul (VAlgebra A) (VTensor t)
  = VAlgebra <$> algebra_mul_algebra A (mkPauliAlgebraElement [(t, C1)]).
Proof.
  unfold py_mul, dunder_mul, PauliAlgebraElement_mul, algebra_mul_tensor.
  cbn [dict_display foldlM dict_set]. rewrite !bind_Ok, fmap_Ok, bind_Ok.
  by destruct (algebra_mul_algebra A _).
Qed.

Lemma py_mul_tensor_algebra t A :
  py_mul (VTensor t) (VAlgebra A)
  = VAlgebra <$> algebra_mul_algebra A (mkPauliAlgebraElement [(t, C1)]).
Proof.
  unfold py_mul, dunder_mul, dunder_rmul, PauliTensor_mul, PauliAlgebraElement_rmul,
    algebra_rmul_tensor, algebra_mul_tensor.
  cbn [dict_display foldlM dict_set same_class].
  rewrite !bind_Ok, fmap_Ok, bind_Ok.
  by destruct (algebra_mul_algebra A _).
Qed.

Lemma fmap_Raise_iff {A B} (f : A → B) (m : result A) (e : error) :
  f <$> m = Raise e ↔ m = Raise e.
Proof. destruct m; split; (done || by intros [= ->]). Qed.

Lemma algebra_mul_algebra_mismatch_iff A B :
  valid_algebra A = true → valid_algebra B = true →
  (algebra_mul_algebra A B = Raise DimensionMismatchError
   ↔ ∃ s o, s ∈ (coeffs A).*1 ∧ o ∈ (coeffs B).*1 ∧ dim s ≠ dim o)
  ∧ ((∀ s o, s ∈ (coeffs A).*1 → o ∈ (coeffs B).*1 → dim s = dim o) →
     ∃ R, algebra_mul_algebra A B = Ok R ∧ valid_algebra R = true).
Proof.
  intros HA HB. pose proof (algebra_mul_algebra_cases A B HA HB) as H.
  pose proof (term_pairs_mismatch (coeffs A) (coeffs B)) as Hiff.
  destruct (existsb dims_differ _) eqn:Ex.
  - split; [split; [intros _; by apply Hiff | done]|].
    intros Hall. destruct (proj1 Hiff eq_refl) as (s & o & Hs & Ho & Hd).
    destruct Hd. by apply Hall.
  - destruct H as (R & E & V). split; [|eauto].
    rewrite E. split; [done|]. intros Hex. apply Hiff in Hex. done.
Qed.


Lemma py_mul_scalar_group z g :
  py_mul (VComplex z) (VGroup g) = VGroup <$> group_mul_scalar g z.
Proof.
  unfold py_mul, dunder_mul, dunder_rmul, PauliGroupElement_rmul, group_rmul_scalar.
  cbn [same_class]. rewrite bind_Ok. by destruct (group_mul_scalar g z).
Qed.

Lemma py_mul_group_scalar g z :
  py_mul (VGroup g) (VComplex z) = VGroup <$> group_mul_scalar g z.
Proof.
  unfold py_mul, dunder_mul, PauliGroupElement_mul.
  by destruct (group_mul_scalar g z).
Qed.

Lemma py_mul_group_group a b :
  py_mul (VGroup a) (VGroup b) = VGroup <$> group_mul_group a b.
Proof.
  unfold py_mul, dunder_mul, PauliGroupElement_mul.
  by destruct (group_mul_group a b).
Qed.

Lemma py_mul_scalar_algebra z A :
  py_mul (VComplex z) (VAlgebra A) = VAlgebra <$> algebra_mul_scalar A z.
Proof.
  unfold py_mul, dunder_mul, dunder_rmul, PauliAlgebraElement_rmul, algebra_rmul_scalar.
  cbn [same_class]. rewrite bind_Ok. by destruct (algebra_mul_scalar A z).
Qed.

Lemma py_mul_algebra_scalar A z :
  py_mul (VAlgebra A) (VComplex z) = VAlgebra <$> algebra_mul_scalar A z.
Proof.
  unfold py_mul, dunder_mul, PauliAlgebraElement_mul.
  by destruct (algebra_mul_scalar A z).
Qed.

Lemma group_mul_scalar_errors g z :
  match group_mul_scalar g z with
  | Ok _ => True
  | Raise e => e = InvalidPhaseError
  end.
Proof.
  unfold group_mul_scalar, PauliGroupElement_new.
  by destruct (fourth_root _).
Qed.

Lemma py_mul_documented_errors x y :
  valid_value x = true → valid_value y = true →
  match py_mul x y with
  | Ok _ => True
  | Raise e => documented_error e = true
  end.
Proof.
  destruct x as [z1|g1|t1|A1], y as [z2|g2|t2|A2]; cbn [valid_value];
    intros Hx Hy.
  - exact I.
  - rewrite py_mul_scalar_group.
    pose proof (group_mul_scalar_errors g2 z1) as H.
    destruct (group_mul_scalar g2 z1); [done|by subst].
  - exact I.
  - rewrite py_mul_scalar_algebra.
    by destruct (algebra_mul_scalar_valid A2 z1 Hy) as (R & -> & _).
  - rewrite py_mul_group_scalar.
    pose proof (group_mul_scalar_errors g1 z2) as H.
    destruct (group_mul_scalar g1 z2); [done|by subst].
  - rewrite py_mul_group_group.
    by destruct (group_mul_group_valid g1 g2 Hx Hy) as (r & -> & _).
  - reflexivity.
  - reflexivity.
  - exact I.
  - reflexivity.
  - rewrite py_mul_tensor_tensor.
    destruct (decide (dim t1 = dim t2)) as [Hd|Hd].
    + by destruct (tensor_mul_tensor_valid t1 t2 Hx Hy Hd) as (? & _ & _ & _ & ->).
    + by rewrite tensor_mul_tensor_mismatch.
  - rewrite py_mul_tensor_algebra.
    assert (Hs : valid_algebra (mkPauliAlgebraElement [(t1, C1)]) = true).
    { unfold valid_algebra. cbn [coeffs forallb fst]. by rewrite Hx. }
    pose proof (algebra_mul_algebra_cases A2 _ Hy Hs) as H.
    destruct (existsb dims_differ _); [by rewrite H|].
    by destruct H as (R & -> & _).
  - rewrite py_mul_algebra_scalar.
    by destruct (algebra_mul_scalar_valid A1 z2 Hx) as (R & -> & _).
  - reflexivity.
  - rewrite py_mul_algebra_tensor.
    assert (Hs : valid_algebra (mkPauliAlgebraElement [(t2, C1)]) = true).
    { unfold valid_algebra. cbn [coeffs forallb fst]. by rewrite Hy. }
    pose proof (algebra_mul_algebra_cases A1 _ Hx Hs) as H.
    destruct (existsb dims_differ _); [by rewrite H|].
    by destruct H as (R & -> & _).
  - rewrite py_mul_algebra_algebra.
    pose proof (algebra_mul_algebra_cases A1 A2 Hx Hy) as H.
    destruct (existsb dims_differ _); [by rewrite H|].
    by destruct H as (R & -> & _).
Qed.

Lemma dict_eq_valid a b :
  valid_dict a = true → valid_dict b = true → ∃ r, dict_eq a b = Ok r.
Proof.
  intros Ha Hb. unfold dict_eq. case_bool_decide; [eauto|].
  match goal with
  | |- ∃ r, foldlM ?f true a = Ok r =>
      edestruct (foldlM_Ok_foldl f
                   (λ (acc : bool) '(k, v),
                      if acc then
                        match raw_get b k with
                        | Some v' => bool_decide (v = v')
                        | None => false
                        end
                      else false)
                   (λ _, True) (λ _, True) a true) as [E _]
  end; [|done|by apply Forall_true|eauto].
  intros acc [k v] _ _. split; [|done].
  destruct acc; [|done]. by rewrite dict_get_valid, bind_Ok.
Qed.

Lemma algebra_eq_valid A B :
  valid_algebra A = true → valid_algebra B = true →
  Forall (λ item, overall_phase item.1 ≠ C0) (coeffs A) →
  Forall (λ item, overall_phase item.1 ≠ C0) (coeffs B) →
  ∃ r, algebra_eq A B = Ok r.
Proof.
  intros HA HB PA PB. unfold algebra_eq.
  destruct (simplify_valid A HA PA) as [-> VA].
  destruct (simplify_valid B HB PB) as [-> VB].
  rewrite !bind_Ok. by apply dict_eq_valid.
Qed.

Lemma group_neg_valid g : valid_group g = true → ∃ r, group_neg g = Ok r.
Proof. intros H. group_cases g H; eexists; reflexivity. Qed.

Lemma algebra_from_str_total s :
  if forallb label_char (chars s)
  then ∃ R, PauliAlgebraElement_from_str s = Ok R
  else PauliAlgebraElement_from_str s = Raise KeyError.
Proof.
  unfold PauliAlgebraElement_from_str.
  pose proof (from_str_total s) as H.
  destruct (forallb label_char (chars s)).
  - destruct H as (r & -> & _). rewrite bind_Ok. eexists. reflexivity.
  - by rewrite H.
Qed.





(** C1.  [A * t] is [A * {t: 1}].  [t * A] is answered by the reflected
    method of [A], which also returns [A * {t: 1}]: the promoted tensor is the
    right operand whichever side [t] stood on.  With [t = X] and [A = {Y: 1}]
    the code returns [{-1j*Z: 1}] for [t * A], and [{t: 1} * A] is
    [{1j*Z: 1}]; the two compare unequal. *)
Theorem tensor_times_algebra_swaps_operands :
  (∀ A t, py_mul (VAlgebra A) (VTensor t)
          = VAlgebra <$> algebra_mul_algebra A (mkPauliAlgebraElement [(t, C1)]))
  ∧ (∀ A t, py_mul (VTensor t) (VAlgebra A)
            = VAlgebra <$> algebra_mul_algebra A (mkPauliAlgebraElement [(t, C1)]))
  ∧ (let t := mkPauliTensor C1 [mkPauliGroupElement C1 SIGMA_X] in
     let A := mkPauliAlgebraElement
                [(mkPauliTensor C1 [mkPauliGroupElement C1 SIGMA_Y], C1)] in
     let Z := mkPauliGroupElement C1 SIGMA_Z in
     py_mul (VTensor t) (VAlgebra A)
     = Ok (VAlgebra (mkPauliAlgebraElement [(mkPauliTensor (Copp Ci) [Z], C1)]))
     ∧ py_mul (VAlgebra (mkPauliAlgebraElement [(t, C1)])) (VAlgebra A)
       = Ok (VAlgebra (mkPauliAlgebraElement [(mkPauliTensor Ci [Z], C1)]))
     ∧ algebra_results_equal
         (algebra_rmul_tensor A t)
         (algebra_mul_algebra (mkPauliAlgebraElement [(t, C1)]) A)
       = Ok false).
Proof.
  split; [exact py_mul_algebra_tensor|].
  split; [intros A t; apply py_mul_tensor_algebra|].
  repeat split; compute_done.
Qed.

(** * Further properties of the code *)

(** ** [sign] *)

Lemma sign_inversions l : sign l = (-1) ^ Z.of_nat (inversions l).
Proof. reflexivity. Qed.

Lemma pow_minus_one_succ (n : nat) :
  (-1) ^ Z.of_nat (S n) = - (-1) ^ Z.of_nat n.
Proof. rewrite Nat2Z.inj_succ, Z.pow_succ_r by lia. lia. Qed.

(** [sign] returns 1 or -1 on every list. *)
Lemma sign_is_a_sign (l : list Z) : sign l = 1 ∨ sign l = -1.
Proof.
  rewrite sign_inversions. induction (inversions l) as [|n IH]; [by left|].
  rewrite pow_minus_one_succ. lia.
Qed.

Lemma inversions_cons x l :
  inversions (x :: l)
  = (sum_list_with (λ y, if bool_decide (x > y)%Z then 1 else 0) l + inversions l)%nat.
Proof.
  unfold inversions. cbn [combinations2]. rewrite sum_list_with_app. f_equal.
  induction l as [|y l IH]; [done|]. rewrite fmap_cons. cbn [sum_list_with].
  by rewrite IH.
Qed.

(** A list in non-decreasing order has sign 1. *)
Lemma sign_sorted (l : list Z) : StronglySorted Z.le l → sign l = 1.
Proof.
  intros Hs. rewrite sign_inversions.
  assert (E : inversions l = 0%nat); [|by rewrite E].
  induction Hs as [|x l _ IH Hx]; [done|].
  rewrite inversions_cons, IH, Nat.add_0_r. clear IH.
  induction Hx as [|y l Hy _ IHl]; [done|].
  cbn [sum_list_with]. rewrite IHl. rewrite bool_decide_eq_false_2 by lia. done.
Qed.

Lemma inversions_swap (l1 l2 : list Z) (x y : Z) :
  (inversions (l1 ++ x :: y :: l2) + (if bool_decide (y > x)%Z then 1 else 0)
   = inversions (l1 ++ y :: x :: l2) + (if bool_decide (x > y)%Z then 1 else 0))%nat.
Proof.
  induction l1 as [|a l1 IH].
  - cbn [app]. rewrite !inversions_cons. cbn [sum_list_with]. lia.
  - cbn [app]. rewrite !inversions_cons.
    rewrite !sum_list_with_app. cbn [sum_list_with]. lia.
Qed.

(** Exchanging two neighbours that differ changes the sign. *)
Lemma sign_adjacent_swap (l1 l2 : list Z) (x y : Z) :
  x ≠ y → sign (l1 ++ y :: x :: l2) = - sign (l1 ++ x :: y :: l2).
Proof.
  intros Hxy. rewrite !sign_inversions.
  pose proof (inversions_swap l1 l2 x y) as H.
  destruct (decide (x > y)) as [Hgt|Hle].
  - rewrite (bool_decide_eq_true_2 _ Hgt) in H.
    rewrite bool_decide_eq_false_2 in H by lia.
    replace (inversions (l1 ++ x :: y :: l2)) with (S (inversions (l1 ++ y :: x :: l2))) by lia.
    rewrite pow_minus_one_succ. lia.
  - rewrite (bool_decide_eq_false_2 _ Hle) in H.
    rewrite bool_decide_eq_true_2 in H by lia.
    replace (inversions (l1 ++ y :: x :: l2)) with (S (inversions (l1 ++ x :: y :: l2))) by lia.
    by rewrite pow_minus_one_succ.
Qed.

(** [sign_adjacent_swap] on the cyclic order 2, 3, 1 and [sign_sorted] on
    1, 2, 3. *)
Lemma sign_adjacent_swap_witness :
  sign ([2] ++ 1 :: 3 :: []) = - sign ([2] ++ 3 :: 1 :: []).
Proof. apply sign_adjacent_swap. lia. Defined.

Lemma sign_sorted_witness : sign [1; 2; 3] = 1.
Proof. apply sign_sorted. repeat constructor; lia. Defined.

(** ** The group of Pauli elements *)

Lemma Complex_ring_theory :
  ring_theory C0 C1 Cadd Cmul (λ a b, Cadd a (Copp b)) Copp eq.
Proof.
  constructor; intros; try reflexivity;
    apply Complex_eq; rewrite ?C0_unfold, ?C1_unfold; simpl; ring.
Qed.

Add Ring Complex_ring : Complex_ring_theory.

Lemma fourth_root_mul p q :
  fourth_root p = true → fourth_root q = true → fourth_root (Cmul p q) = true.
Proof.
  intros Hp%fourth_root_cases Hq%fourth_root_cases.
  destruct Hp as [ -> | [ -> | [ -> | -> ] ] ];
    destruct Hq as [ -> | [ -> | [ -> | -> ] ] ]; compute_done.
Qed.

Lemma product_phase_root s1 s2 : fourth_root (product_phase s1 s2) = true.
Proof. destruct s1, s2; compute_done. Qed.

Lemma TIMES_TABLE_product s1 s2 :
  table_getitem TIMES_TABLE (label_index s1, label_index s2)
  = Ok (product_phase s1 s2, label_index (product_label s1 s2)).
Proof. destruct s1, s2; compute_done. Qed.

Lemma SIGMA_LIST_getitem s : list_getitem SIGMA_LIST (label_index s) = Ok s.
Proof. by destruct s. Qed.

Lemma group_mul_group_formula a b :
  valid_group a = true → valid_group b = true →
  group_mul_group a b
  = Ok (mkPauliGroupElement
          (Cmul (Cmul (phase a) (phase b)) (product_phase (sigma a) (sigma b)))
          (product_label (sigma a) (sigma b))).
Proof.
  intros Ha Hb. unfold group_mul_group.
  rewrite !label_index_spec, !bind_Ok, TIMES_TABLE_product, bind_Ok.
  rewrite SIGMA_LIST_getitem, bind_Ok.
  apply PauliGroupElement_new_Ok.
  apply fourth_root_mul; [by apply fourth_root_mul|apply product_phase_root].
Qed.

Lemma product_label_assoc s1 s2 s3 :
  product_label (product_label s1 s2) s3 = product_label s1 (product_label s2 s3).
Proof. by destruct s1, s2, s3. Qed.

Lemma product_phase_cocycle s1 s2 s3 :
  Cmul (product_phase s1 s2) (product_phase (product_label s1 s2) s3)
  = Cmul (product_phase s2 s3) (product_phase s1 (product_label s2 s3)).
Proof. destruct s1, s2, s3; compute_done. Qed.

(** The product of two group elements is a group element again: the
    multiplication neither raises nor leaves the four phases. *)
Theorem group_mul_closed (a b : PauliGroupElement) :
  valid_group a = true → valid_group b = true →
  ∃ r, group_mul_group a b = Ok r
       ∧ valid_group r = true
       ∧ sigma r = product_label (sigma a) (sigma b).
Proof.
  intros Ha Hb. rewrite group_mul_group_formula by done.
  eexists. split; [reflexivity|]. split; [|reflexivity].
  apply fourth_root_mul; [by apply fourth_root_mul|apply product_phase_root].
Qed.

Lemma group_mul_closed_witness :
  ∃ r, group_mul_group (mkPauliGroupElement Ci SIGMA_X)
                       (mkPauliGroupElement (C_of_Z (-1)) SIGMA_Z) = Ok r
       ∧ valid_group r = true
       ∧ sigma r = product_label SIGMA_X SIGMA_Z.
Proof.
  apply (group_mul_closed (mkPauliGroupElement Ci SIGMA_X)
                          (mkPauliGroupElement (C_of_Z (-1)) SIGMA_Z));
    reflexivity.
Defined.

(** Multiplication of group elements is associative. *)
Theorem group_mul_assoc (a b c : PauliGroupElement) :
  valid_group a = true → valid_group b = true → valid_group c = true →
  (ab ← group_mul_group a b; group_mul_group ab c)
  = (bc ← group_mul_group b c; group_mul_group a bc)
  ∧ ∃ r, (ab ← group_mul_group a b; group_mul_group ab c) = Ok r.
Proof.
  intros Ha Hb Hc.
  rewrite (group_mul_group_formula a b Ha Hb), (group_mul_group_formula b c Hb Hc).
  rewrite !bind_Ok.
  rewrite !group_mul_group_formula; try done;
    try (apply fourth_root_mul; [by apply fourth_root_mul|apply product_phase_root]).
  cbn [phase sigma]. split; [|eauto]. f_equal.
  f_equal; [|apply product_label_assoc].
  pose proof (product_phase_cocycle (sigma a) (sigma b) (sigma c)) as H.
  set (t1 := product_phase (sigma a) (sigma b)) in *.
  set (t2 := product_phase (product_label (sigma a) (sigma b)) (sigma c)) in *.
  set (t3 := product_phase (sigma b) (sigma c)) in *.
  set (t4 := product_phase (sigma a) (product_label (sigma b) (sigma c))) in *.
  transitivity (Cmul (Cmul (Cmul (phase a) (phase b)) (phase c)) (Cmul t1 t2)); [ring|].
  rewrite H. ring.
Qed.

Lemma group_mul_assoc_witness :
  let a := mkPauliGroupElement Ci SIGMA_X in
  let b := mkPauliGroupElement C1 SIGMA_Y in
  let c := mkPauliGroupElement (C_of_Z (-1)) SIGMA_Y in
  (ab ← group_mul_group a b; group_mul_group ab c)
  = (bc ← group_mul_group b c; group_mul_group a bc)
  ∧ ∃ r, (ab ← group_mul_group a b; group_mul_group ab c) = Ok r.
Proof.
  intros a b c. apply (group_mul_assoc a b c); reflexivity.
Defined.

(** Two group elements commute when one of them carries the label I or both
    carry the same label, and anticommute otherwise. *)
Theorem group_mul_commutes_up_to_sign (a b : PauliGroupElement) :
  valid_group a = true → valid_group b = true →
  if bool_decide (sigma a = SIGMA_I ∨ sigma b = SIGMA_I ∨ sigma a = sigma b)
  then group_results_equal (group_mul_group a b) (group_mul_group b a) = true
  else group_results_equal (group_mul_group a b)
                           (group_mul_group b a ≫= group_neg) = true.
Proof. intros Ha Hb. group_cases a Ha; group_cases b Hb; compute_done. Qed.

Lemma group_mul_commutes_up_to_sign_witness :
  group_results_equal
    (group_mul_group (mkPauliGroupElement Ci SIGMA_Z) (mkPauliGroupElement C1 SIGMA_X))
    (group_mul_group (mkPauliGroupElement C1 SIGMA_X) (mkPauliGroupElement Ci SIGMA_Z)
     ≫= group_neg) = true.
Proof.
  apply (group_mul_commutes_up_to_sign (mkPauliGroupElement Ci SIGMA_Z)
                                       (mkPauliGroupElement C1 SIGMA_X));
    reflexivity.
Defined.

(** Every group element has a two-sided inverse in the group: the element of
    the same label whose phase is the cube of its phase. *)
Theorem group_inverse (g : PauliGroupElement) :
  valid_group g = true →
  let h := mkPauliGroupElement (Cmul (Cmul (phase g) (phase g)) (phase g)) (sigma g) in
  PauliGroupElement_new (Cmul (Cmul (phase g) (phase g)) (phase g)) (sigma g) = Ok h
  ∧ group_results_equal (group_mul_group g h) PauliGroupElement_I = true
  ∧ group_results_equal (group_mul_group h g) PauliGroupElement_I = true.
Proof. intros Hg. group_cases g Hg; repeat split; compute_done. Qed.

Lemma group_inverse_witness :
  let g := mkPauliGroupElement Ci SIGMA_Y in
  let h := mkPauliGroupElement (Cmul (Cmul Ci Ci) Ci) SIGMA_Y in
  PauliGroupElement_new (Cmul (Cmul Ci Ci) Ci) SIGMA_Y = Ok h
  ∧ group_results_equal (group_mul_group g h) PauliGroupElement_I = true
  ∧ group_results_equal (group_mul_group h g) PauliGroupElement_I = true.
Proof.
  intros g h. apply (group_inverse (mkPauliGroupElement Ci SIGMA_Y)). reflexivity.
Defined.

(** Negation never raises on a group element, keeps the label, and undoes
    itself. *)
Theorem group_neg_involutive (g : PauliGroupElement) :
  valid_group g = true →
  ∃ n, group_neg g = Ok n
       ∧ valid_group n = true
       ∧ sigma n = sigma g
       ∧ phase n = Cmul (phase g) (C_of_Z (-1))
       ∧ group_neg n = Ok g.
Proof.
  intros Hg. group_cases g Hg;
    (eexists; split; [reflexivity|]; repeat split; compute_done).
Qed.

Lemma group_neg_involutive_witness :
  let g := mkPauliGroupElement (Copp Ci) SIGMA_Z in
  ∃ n, group_neg g = Ok n
       ∧ valid_group n = true
       ∧ sigma n = sigma g
       ∧ phase n = Cmul (phase g) (C_of_Z (-1))
       ∧ group_neg n = Ok g.
Proof.
  intros g. apply (group_neg_involutive g). reflexivity.
Defined.

(** The rendering of a group element never fails on a missing phase, and two
    different group elements are rendered differently. *)
Theorem group_str_injective (a b : PauliGroupElement) :
  valid_group a = true → valid_group b = true →
  (∃ text, group_str a = Ok text)
  ∧ (group_str a = group_str b → a = b).
Proof.
  intros Ha Hb. split.
  - group_cases a Ha; eexists; reflexivity.
  - group_cases a Ha; group_cases b Hb;
      first [ reflexivity | intros E; vm_compute in E; discriminate E ].
Qed.

Lemma group_str_injective_witness :
  let a := mkPauliGroupElement Ci SIGMA_X in
  let b := mkPauliGroupElement (Copp Ci) SIGMA_X in
  (∃ text, group_str a = Ok text)
  ∧ (group_str a = group_str b → a = b).
Proof.
  intros a b. apply (group_str_injective a b); reflexivity.
Defined.

(** ** Products of tensors *)

Lemma math_prod_acc acc l : foldl Cmul acc l = Cmul acc (math_prod l).
Proof.
  unfold math_prod. revert acc. induction l as [|x l IH]; intros acc; cbn [foldl].
  - ring.
  - rewrite (IH (Cmul acc x)), (IH (Cmul C1 x)). ring.
Qed.

Lemma math_prod_cons x l : math_prod (x :: l) = Cmul x (math_prod l).
Proof. unfold math_prod at 1. cbn [foldl]. rewrite math_prod_acc. ring. Qed.

Lemma math_prod_nil : math_prod [] = C1.
Proof. reflexivity. Qed.

Lemma labelled_dephase (l : list PauliGroupElement) :
  dephase <$> l = labelled (sigma <$> l).
Proof. unfold labelled. rewrite <- list_fmap_compose. by apply list_fmap_ext. Qed.

Lemma sigma_labelled (l : list SIGMA) : sigma <$> labelled l = l.
Proof.
  unfold labelled. rewrite <- list_fmap_compose.
  rewrite <- (list_fmap_id l) at 2. by apply list_fmap_ext.
Qed.

Lemma labels_labelled p l : labels (mkPauliTensor p (labelled l)) = l.
Proof. apply sigma_labelled. Qed.

Lemma labelled_normal p l :
  valid_tensor (mkPauliTensor p (labelled l)) = true
  ∧ overall_phase (mkPauliTensor p (labelled l)) = p
  ∧ dephase <$> labelled l = labelled l.
Proof.
  assert (E : labelled l = dephase <$> labelled l).
  { by rewrite labelled_dephase, sigma_labelled. }
  rewrite E at 1 2. split; [apply dephased_valid|].
  split; [apply overall_phase_dephased|done].
Qed.

Lemma positionwise_products (ta tb : list PauliGroupElement) :
  mapM (λ '(s_factor, o_factor), group_mul_group s_factor o_factor)
       (zip (dephase <$> ta) (dephase <$> tb))
  = Ok (zip_with (λ x y, mkPauliGroupElement (product_phase x y) (product_label x y))
                 (sigma <$> ta) (sigma <$> tb)).
Proof.
  revert tb. induction ta as [|x ta IH]; intros [|y tb]; try reflexivity.
  rewrite !fmap_cons. cbn [zip_with mapM].
  fold (mapM (λ '(s_factor, o_factor), group_mul_group s_factor o_factor)
             (zip (dephase <$> ta) (dephase <$> tb))).
  rewrite group_mul_group_formula by apply dephase_valid.
  rewrite bind_Ok, IH, bind_Ok. cbn [phase sigma dephase]. unfold mret, result_ret.
  do 3 f_equal. ring.
Qed.

Lemma zip_products_phases (la lb : list SIGMA) :
  phase <$> zip_with (λ x y, mkPauliGroupElement (product_phase x y) (product_label x y))
                     la lb
  = zip_with product_phase la lb.
Proof.
  revert lb. induction la as [|x la IH]; intros [|y lb]; try done.
  cbn [zip_with]. by rewrite fmap_cons, IH.
Qed.

Lemma zip_products_labels (la lb : list SIGMA) :
  dephase <$> zip_with (λ x y, mkPauliGroupElement (product_phase x y) (product_label x y))
                       la lb
  = labelled (zip_with product_label la lb).
Proof.
  revert lb. induction la as [|x la IH]; intros [|y lb]; try done.
  cbn [zip_with]. unfold labelled in *. by rewrite !fmap_cons, IH.
Qed.

Lemma tensor_mul_tensor_formula a b :
  valid_tensor a = true → valid_tensor b = true → dim a = dim b →
  tensor_mul_tensor a b
  = Ok (mkPauliTensor
          (Cmul (math_prod (zip_with product_phase (labels a) (labels b)))
                (Cmul (overall_phase a) (overall_phase b)))
          (labelled (zip_with product_label (labels a) (labels b)))).
Proof.
  intros Ha Hb Hdim. unfold tensor_mul_tensor.
  rewrite bool_decide_eq_false_2 by (intros H; by apply H).
  rewrite (factor_phase_valid a Ha), (factor_phase_valid b Hb), !bind_Ok.
  cbn [tensor tphase]. rewrite positionwise_products, bind_Ok.
  rewrite factor_phase_valid.
  2:{ apply valid_tensor_Forall. cbn [tensor].
      apply Forall_forall. intros g Hg.
      apply list_elem_of_lookup in Hg as [i Hg].
      apply lookup_zip_with_Some in Hg as (x & y & -> & _ & _).
      apply product_phase_root. }
  rewrite bind_Ok. unfold tensor_rmul_scalar, overall_phase, labels.
  cbn [tphase tensor]. f_equal.
  rewrite zip_products_phases, zip_products_labels. f_equal. ring.
Qed.

Lemma labelled_inj (l1 l2 : list SIGMA) : labelled l1 = labelled l2 → l1 = l2.
Proof. intros E. apply (f_equal (fmap sigma)) in E. by rewrite !sigma_labelled in E. Qed.

Lemma tensor_eq_true_iff a b :
  valid_tensor a = true → valid_tensor b = true →
  tensor_eq a b = Ok true ↔ overall_phase a = overall_phase b ∧ labels a = labels b.
Proof.
  intros Ha Hb. rewrite tensor_eq_valid by done. rewrite !labelled_dephase.
  fold (labels a) (labels b). split.
  - intros [= [Hp%bool_decide_eq_true Hl%bool_decide_eq_true]%andb_true_iff].
    split; [done|by apply labelled_inj].
  - intros [-> ->]. by rewrite !bool_decide_eq_true_2.
Qed.

Lemma dim_labels t : dim t = Z.of_nat (length (labels t)).
Proof. unfold dim, labels. by rewrite length_fmap. Qed.





Lemma replicate_zip_with_l {A B C} (f : A → B → C) (x : A) (l : list B) :
  zip_with f (replicate (length l) x) l = f x <$> l.
Proof. induction l as [|y l IH]; [done|]. cbn. by rewrite IH. Qed.

Lemma replicate_zip_with_r {A B C} (f : A → B → C) (y : B) (l : list A) :
  zip_with f l (replicate (length l) y) = (λ x, f x y) <$> l.
Proof. induction l as [|x l IH]; [done|]. cbn. by rewrite IH. Qed.

Lemma math_prod_ones {A} (l : list A) : math_prod ((λ _, C1) <$> l) = C1.
Proof.
  induction l as [|x l IH]; [done|]. rewrite fmap_cons, math_prod_cons, IH. ring.
Qed.

Lemma identity_tensor_labelled n :
  identity_tensor n = mkPauliTensor C1 (labelled (replicate n SIGMA_I)).
Proof. unfold identity_tensor, labelled. by rewrite fmap_replicate. Qed.

Lemma identity_tensor_normal n :
  valid_tensor (identity_tensor n) = true
  ∧ overall_phase (identity_tensor n) = C1
  ∧ labels (identity_tensor n) = replicate n SIGMA_I
  ∧ dim (identity_tensor n) = Z.of_nat n.
Proof.
  rewrite dim_labels, identity_tensor_labelled, labels_labelled, length_replicate.
  destruct (labelled_normal C1 (replicate n SIGMA_I)) as (V & P & _). done.
Qed.



Lemma const_fmap_replicate {A B} (y : B) (l : list A) :
  (λ _, y) <$> l = replicate (length l) y.
Proof. induction l as [|x l IH]; [done|]. cbn. by rewrite IH. Qed.

Lemma from_str_Ok_inv s r :
  PauliTensor_from_str s = Ok r →
  tphase r = C1 ∧ phase_factored r = true ∧ length (tensor r) = String.length s.
Proof.
  unfold PauliTensor_from_str.
  intros (factors & Hf & [= <-])%bind_Ok_inv. cbn [tphase tensor].
  apply mapM_Ok_Forall2 in Hf. rewrite <- length_chars.
  unfold phase_factored. cbn [tensor].
  induction Hf as [|c g cs gs Hc _ IH]; [done|].
  apply bind_Ok_inv in Hc as (sig & _ & Hg).
  apply PauliGroupElement_new_inv in Hg as [-> _].
  destruct IH as (_ & IH & Hlen). cbn [forallb phase length].
  rewrite IH, Hlen. by rewrite bool_decide_eq_true_2.
Qed.



Lemma zip_label_assoc (la lb lc : list SIGMA) :
  zip_with product_label (zip_with product_label la lb) lc
  = zip_with product_label la (zip_with product_label lb lc).
Proof.
  revert lb lc. induction la as [|x la IH]; intros [|y lb] [|z lc]; try done.
  cbn [zip_with]. by rewrite product_label_assoc, IH.
Qed.

Lemma zip_phase_cocycle (la lb lc : list SIGMA) :
  length la = length lb → length lb = length lc →
  Cmul (math_prod (zip_with product_phase la lb))
       (math_prod (zip_with product_phase (zip_with product_label la lb) lc))
  = Cmul (math_prod (zip_with product_phase lb lc))
         (math_prod (zip_with product_phase la (zip_with product_label lb lc))).
Proof.
  revert lb lc. induction la as [|x la IH]; intros [|y lb] [|z lc]; try done.
  intros [= H1] [= H2]. cbn [zip_with]. rewrite !math_prod_cons.
  pose proof (IH lb lc H1 H2) as E. pose proof (product_phase_cocycle x y z) as F.
  set (A := math_prod (zip_with product_phase la lb)) in *.
  set (B := math_prod (zip_with product_phase (zip_with product_label la lb) lc)) in *.
  set (C := math_prod (zip_with product_phase lb lc)) in *.
  set (D := math_prod (zip_with product_phase la (zip_with product_label lb lc))) in *.
  transitivity (Cmul (Cmul (product_phase x y) (product_phase (product_label x y) z))
                     (Cmul A B)); [ring|].
  rewrite E, F. ring.
Qed.





Lemma product_label_comm s1 s2 : product_label s1 s2 = product_label s2 s1.
Proof. by destruct s1, s2. Qed.

Lemma product_phase_comm_sign s1 s2 :
  product_phase s1 s2 = product_phase s2 s1
  ∨ product_phase s1 s2 = Cmul (product_phase s2 s1) (C_of_Z (-1)).
Proof. destruct s1, s2; compute_done. Qed.

Lemma zip_phase_comm_sign (la lb : list SIGMA) :
  math_prod (zip_with product_phase la lb) = math_prod (zip_with product_phase lb la)
  ∨ math_prod (zip_with product_phase la lb)
    = Cmul (math_prod (zip_with product_phase lb la)) (C_of_Z (-1)).
Proof.
  revert lb. induction la as [|x la IH]; intros [|y lb]; try by left.
  cbn [zip_with]. rewrite !math_prod_cons.
  destruct (IH lb) as [->| ->], (product_phase_comm_sign x y) as [->| ->].
  - by left.
  - right. ring.
  - right. ring.
  - left.
    assert (M : Cmul (C_of_Z (-1)) (C_of_Z (-1)) = C1) by compute_done.
    transitivity (Cmul (Cmul (product_phase y x)
                             (math_prod (zip_with product_phase lb la)))
                       (Cmul (C_of_Z (-1)) (C_of_Z (-1)))); [ring|].
    rewrite M. ring.
Qed.



(** ** Sort keys *)

Lemma lexicographic_digits (t : PauliTensor) :
  str_for_lexicographic t
  = Ok (String.concat "" ((λ s, pretty (label_index s)) <$> labels t)).
Proof.
  unfold str_for_lexicographic, labels.
  rewrite (mapM_Ok_fmap _ (λ factor, pretty (label_index (sigma factor)))).
  - rewrite bind_Ok. by rewrite <- list_fmap_compose.
  - apply Forall_true. intros g. by rewrite label_index_spec, bind_Ok.
Qed.

Lemma concat_digits_cons (s : SIGMA) (l : list SIGMA) :
  ∃ c, (∀ s', (c = match s' with
                   | SIGMA_I => "0" | SIGMA_X => "1"
                   | SIGMA_Y => "2" | SIGMA_Z => "3"
                   end)%char ↔ s = s')
       ∧ String.concat "" ((λ s, pretty (label_index s)) <$> (s :: l))
         = String c (String.concat "" ((λ s, pretty (label_index s)) <$> l)).
Proof.
  destruct s;
    [exists "0"%char | exists "1"%char | exists "2"%char | exists "3"%char];
    (split; [intros []; split; (done || discriminate)|]);
    destruct l as [|[] l]; reflexivity.
Qed.

Lemma concat_digits_inj (l1 l2 : list SIGMA) :
  String.concat "" ((λ s, pretty (label_index s)) <$> l1)
  = String.concat "" ((λ s, pretty (label_index s)) <$> l2) → l1 = l2.
Proof.
  revert l2. induction l1 as [|x l1 IH]; intros [|y l2]; try done.
  - destruct (concat_digits_cons y l2) as (c & _ & ->). done.
  - destruct (concat_digits_cons x l1) as (c & _ & ->). done.
  - destruct (concat_digits_cons x l1) as (c & Hc & ->).
    destruct (concat_digits_cons y l2) as (c' & Hc' & ->).
    intros [= -> E]. f_equal; [|by apply IH].
    apply (Hc y). by apply Hc'.
Qed.

Lemma concat_digits_length (l : list SIGMA) :
  String.length (String.concat "" ((λ s, pretty (label_index s)) <$> l)) = length l.
Proof.
  induction l as [|x l IH]; [done|].
  destruct (concat_digits_cons x l) as (c & _ & ->). simpl. by rewrite IH.
Qed.

(** The sort key of a tensor never fails, has one digit for each factor, and
    two tensors have the same key exactly when they have the same sequence of
    labels. *)
Theorem str_for_lexicographic_key (t1 t2 : PauliTensor) :
  ∃ k1 k2,
    str_for_lexicographic t1 = Ok k1
    ∧ str_for_lexicographic t2 = Ok k2
    ∧ String.length k1 = length (tensor t1)
    ∧ (k1 = k2 ↔ labels t1 = labels t2).
Proof.
  rewrite !lexicographic_digits. eexists _, _.
  split; [reflexivity|]. split; [reflexivity|]. split.
  - rewrite concat_digits_length. unfold labels. by rewrite length_fmap.
  - split; [apply concat_digits_inj | by intros ->].
Qed.

(** ** Mappings from tensors to coefficients *)

Lemma raw_get_None d k : raw_get d k = None ↔ k ∉ d.*1.
Proof.
  induction d as [|[k' v] d IH]; cbn [raw_get].
  - split; [intros _; apply not_elem_of_nil|done].
  - rewrite fmap_cons, not_elem_of_cons. cbn [fst]. case_bool_decide.
    + split; [done|]. intros [? _]. congruence.
    + rewrite IH. split; [|tauto]. intros ?. split; [congruence|done].
Qed.

Lemma raw_set_fresh d k v : k ∉ d.*1 → raw_set d k v = d ++ [(k, v)].
Proof.
  induction d as [|[k' v'] d IH]; [done|].
  rewrite fmap_cons, not_elem_of_cons. cbn [fst raw_set]. intros [Hne Hnin].
  rewrite bool_decide_eq_false_2 by congruence. by rewrite IH.
Qed.

Lemma raw_set_keys d k v :
  (raw_set d k v).*1 = if decide (k ∈ d.*1) then d.*1 else d.*1 ++ [k].
Proof.
  induction d as [|[k' v'] d IH]; cbn [raw_set].
  - rewrite decide_False by apply not_elem_of_nil. done.
  - case_bool_decide as E.
    + subst k'. rewrite !fmap_cons. cbn [fst].
      rewrite decide_True by (apply elem_of_cons; by left). done.
    + rewrite !fmap_cons, IH. cbn [fst].
      destruct (decide (k ∈ d.*1)) as [Hin|Hnin].
      * rewrite decide_True by (apply elem_of_cons; by right). done.
      * rewrite decide_False; [done|].
        rewrite elem_of_cons. intros [?|?]; congruence.
Qed.

Lemma raw_set_distinct d k v : distinct_keys d → distinct_keys (raw_set d k v).
Proof.
  unfold distinct_keys. intros Hd. rewrite raw_set_keys.
  destruct (decide (k ∈ d.*1)); [done|].
  apply NoDup_app. split; [done|]. split; [|apply NoDup_singleton].
  intros x Hx ->%list_elem_of_singleton. done.
Qed.

Lemma raw_get_set d k v k' :
  raw_get (raw_set d k v) k' = if decide (k = k') then Some v else raw_get d k'.
Proof.
  induction d as [|[k0 v0] d IH]; cbn [raw_set raw_get].
  - case_bool_decide; destruct (decide (k = k')); congruence.
  - case_bool_decide as E; cbn [raw_get].
    + subst k0. case_bool_decide; destruct (decide (k = k')); congruence.
    + rewrite IH. case_bool_decide; destruct (decide (k = k')); congruence.
Qed.



Lemma foldl_append_distinct (step : dict → PauliTensor * Complex → dict)
      (val : PauliTensor * Complex → PauliTensor * Complex)
      (d acc : dict) :
  (∀ acc item, (val item).1 ∉ acc.*1 → step acc item = acc ++ [val item]) →
  NoDup (acc ++ (val <$> d)).*1 →
  foldl step acc d = acc ++ (val <$> d).
Proof.
  intros Hstep. revert acc. induction d as [|item d IH]; intros acc Hn.
  - by rewrite app_nil_r.
  - cbn [foldl]. rewrite fmap_cons in Hn |- *.
    rewrite Hstep.
    + rewrite IH; rewrite <- app_assoc; done.
    + rewrite fmap_app, fmap_cons in Hn.
      apply NoDup_app in Hn as (_ & Hn & _). intros Hin.
      apply (Hn _ Hin). apply elem_of_cons. by left.
Qed.

Lemma Cadd_0_l z : Cadd C0 z = z.
Proof. ring. Qed.

Lemma accumulate_fresh d k v : k ∉ d.*1 → accumulate d k v = d ++ [(k, v)].
Proof.
  intros Hn. unfold accumulate.
  rewrite (proj2 (raw_get_None d k) Hn). cbn [default].
  by rewrite Cadd_0_l, raw_set_fresh.
Qed.

Lemma accumulate_keys_of d k v x :
  x ∈ (accumulate d k v).*1 ↔ x ∈ d.*1 ∨ x = k.
Proof.
  unfold accumulate. rewrite raw_set_keys.
  destruct (decide (k ∈ d.*1)) as [Hin|Hnin].
  - split; [by left|]. intros [?| ->]; done.
  - rewrite elem_of_app, list_elem_of_singleton. done.
Qed.

Lemma simplified_coeffs_invariant d :
  valid_dict (simplified_coeffs d) = true
  ∧ distinct_keys (simplified_coeffs d)
  ∧ normalized_keys (simplified_coeffs d).
Proof.
  unfold simplified_coeffs.
  assert (G : ∀ acc, valid_dict acc = true ∧ distinct_keys acc ∧ normalized_keys acc →
              let r := foldl (λ new_coeffs '(t, c),
                                accumulate new_coeffs
                                           (mkPauliTensor C1 (dephase <$> tensor t))
                                           (Cmul c (overall_phase t))) acc d in
              valid_dict r = true ∧ distinct_keys r ∧ normalized_keys r).
  { induction d as [|[t c] d IH]; intros acc Hacc; [done|].
    cbn [foldl]. apply IH. destruct Hacc as (V & N & K).
    split; [apply accumulate_valid; [done|apply dephased_valid]|].
    split; [by apply raw_set_distinct|].
    unfold normalized_keys in *. rewrite Forall_forall in K |- *.
    intros [k v] Hin.
    assert (Hk : k ∈ (accumulate acc (mkPauliTensor C1 (dephase <$> tensor t))
                                 (Cmul c (overall_phase t))).*1).
    { apply list_elem_of_fmap. by exists (k, v). }
    apply accumulate_keys_of in Hk as [Hk| ->].
    - apply list_elem_of_fmap in Hk as ([k' v'] & -> & Hk). by apply (K (k', v')).
    - cbn [fst tphase]. split; [done|apply dephased_phase_factored]. }
  apply G. repeat split; [apply NoDup_nil_2|constructor].
Qed.

Lemma simplified_coeffs_normalized d :
  distinct_keys d → normalized_keys d → simplified_coeffs d = d.
Proof.
  intros Hn Hk. unfold simplified_coeffs.
  assert (E : ∀ acc d', Forall (λ item : PauliTensor * Complex,
                                  tphase item.1 = C1 ∧ phase_factored item.1 = true) d' →
              NoDup (acc ++ d').*1 →
              foldl (λ new_coeffs '(t, c),
                       accumulate new_coeffs (mkPauliTensor C1 (dephase <$> tensor t))
                                  (Cmul c (overall_phase t))) acc d'
              = acc ++ d').
  { intros acc d' Hd'. revert acc.
    induction Hd' as [|[t c] d' [Hp Hf] _ IH]; intros acc Hnd.
    - by rewrite app_nil_r.
    - cbn [foldl fst] in *.
      destruct (phase_factored_fixed t Hf) as (_ & D & O).
      rewrite D, O, Hp.
      assert (Et : mkPauliTensor C1 (tensor t) = t) by (destruct t; simpl in *; by subst).
      rewrite Et. replace (Cmul c C1) with c by ring.
      rewrite accumulate_fresh.
      + rewrite IH; rewrite <- app_assoc; done.
      + rewrite fmap_app, fmap_cons in Hnd.
        apply NoDup_app in Hnd as (_ & Hnd & _). intros Hin.
        apply (Hnd _ Hin). apply elem_of_cons. by left. }
  by apply (E [] d).
Qed.

Lemma normalized_keys_nonzero d :
  normalized_keys d → Forall (λ item, overall_phase item.1 ≠ C0) d.
Proof.
  unfold normalized_keys. intros H. eapply Forall_impl; [exact H|].
  intros [k v] [Hp Hf]. cbn [fst] in *.
  destruct (phase_factored_fixed k Hf) as (_ & _ & ->). rewrite Hp. compute_done.
Qed.



Lemma raw_get_member d k v :
  distinct_keys d → (k, v) ∈ d → raw_get d k = Some v.
Proof.
  unfold distinct_keys. induction d as [|[k' v'] d IH]; [by intros _ ?%elem_of_nil|].
  rewrite fmap_cons, NoDup_cons, elem_of_cons. cbn [fst raw_get].
  intros [Hnin Hn] [[= <- <-]|Hin].
  - by rewrite bool_decide_eq_true_2.
  - rewrite bool_decide_eq_false_2; [by apply IH|].
    intros ->. apply Hnin. apply list_elem_of_fmap. by exists (k, v).
Qed.

Lemma dict_eq_refl d :
  valid_dict d = true → distinct_keys d → dict_eq d d = Ok true.
Proof.
  intros Hv Hn. unfold dict_eq. rewrite bool_decide_eq_false_2 by (intros H; by apply H).
  match goal with
  | |- foldlM ?f true d = _ =>
      destruct (foldlM_Ok_foldl f (λ _ _, true) (λ acc, acc = true)
                  (λ item, raw_get d item.1 = Some item.2) d true) as [E I]
  end.
  - intros acc [k v] -> Hk. cbn [fst snd] in Hk.
    rewrite dict_get_valid, bind_Ok, Hk by done.
    by rewrite bool_decide_eq_true_2.
  - done.
  - apply Forall_forall. intros [k v] Hin. by apply raw_get_member.
  - by rewrite E, I.
Qed.



Lemma foldl_accumulate_valid acc d :
  valid_dict acc = true → valid_dict d = true →
  foldlM (λ sum_coeffs '(tensor, coeff), defaultdict_iadd sum_coeffs tensor coeff) acc d
  = Ok (foldl (λ sum_coeffs '(tensor, coeff), accumulate sum_coeffs tensor coeff) acc d)
  ∧ valid_dict (foldl (λ sum_coeffs '(tensor, coeff), accumulate sum_coeffs tensor coeff)
                      acc d) = true.
Proof.
  intros Hacc Hd.
  apply (foldlM_Ok_foldl _ _ (λ d, valid_dict d = true)
           (λ item : PauliTensor * Complex, valid_tensor item.1 = true));
    [|done|by apply valid_dict_Forall].
  intros a [k v] Ha Hk. split; [by apply defaultdict_iadd_valid | by apply accumulate_valid].
Qed.

Lemma foldl_accumulate_get acc d k :
  distinct_keys d →
  default C0 (raw_get (foldl (λ sum_coeffs '(tensor, coeff),
                                accumulate sum_coeffs tensor coeff) acc d) k)
  = Cadd (default C0 (raw_get acc k)) (default C0 (raw_get d k)).
Proof.
  unfold distinct_keys. revert acc.
  induction d as [|[k0 v0] d IH]; intros acc Hn; cbn [foldl raw_get].
  - cbn [default]. ring.
  - rewrite fmap_cons, NoDup_cons in Hn. destruct Hn as [Hnin Hn].
    rewrite IH by done. unfold accumulate at 1. rewrite raw_get_set.
    case_bool_decide as E.
    + subst k0. rewrite decide_True by done.
      rewrite (proj2 (raw_get_None d k) Hnin). cbn [default]. unfold id. ring.
    + rewrite decide_False by done. done.
Qed.

Lemma foldl_accumulate_distinct acc d :
  distinct_keys acc →
  distinct_keys (foldl (λ sum_coeffs '(tensor, coeff),
                          accumulate sum_coeffs tensor coeff) acc d).
Proof.
  revert acc. induction d as [|[k v] d IH]; intros acc Hn; [done|].
  cbn [foldl]. apply IH. by apply raw_set_distinct.
Qed.



Lemma foldl_accumulate_fresh d :
  distinct_keys d →
  foldl (λ sum_coeffs '(tensor, coeff), accumulate sum_coeffs tensor coeff) [] d = d.
Proof.
  intros Hn.
  rewrite (foldl_append_distinct _ id d []).
  - by rewrite list_fmap_id.
  - intros acc [k v] Hk. by apply accumulate_fresh.
  - by rewrite list_fmap_id.
Qed.



(** A product with the empty algebra element is the empty element, whatever
    the other operand holds: no pair of terms is multiplied and nothing is
    raised. *)
Theorem algebra_mul_empty (A : PauliAlgebraElement) :
  algebra_mul_algebra A (mkPauliAlgebraElement []) = Ok (mkPauliAlgebraElement [])
  ∧ algebra_mul_algebra (mkPauliAlgebraElement []) A = Ok (mkPauliAlgebraElement []).
Proof.
  unfold algebra_mul_algebra. cbn [coeffs]. split; [|reflexivity].
  assert (E : (s_item ← coeffs A;
               o_item ← ([] : dict); [(s_item, o_item)]) = []).
  { induction (coeffs A) as [|x l IH]; [done|]. exact IH. }
  by rewrite E.
Qed.

Lemma accumulate_nonempty d k v : accumulate d k v ≠ [].
Proof. unfold accumulate. destruct d as [|[k' v'] d]; cbn [raw_set]; [done|]. by case_bool_decide. Qed.

Lemma simplified_coeffs_nonempty d : d ≠ [] → simplified_coeffs d ≠ [].
Proof.
  destruct d as [|[t c] d]; [done|]. intros _. unfold simplified_coeffs. cbn [foldl].
  generalize (accumulate_nonempty [] (mkPauliTensor C1 (dephase <$> tensor t))
                                  (Cmul c (overall_phase t))).
  generalize (accumulate [] (mkPauliTensor C1 (dephase <$> tensor t))
                         (Cmul c (overall_phase t))).
  induction d as [|[t' c'] d IH]; intros acc Hacc; [done|].
  cbn [foldl]. apply IH, accumulate_nonempty.
Qed.



Lemma dict_display_distinct items :
  valid_dict items = true → distinct_keys items → dict_display items = Ok items.
Proof.
  intros Hv Hn. unfold dict_display.
  destruct (foldlM_Ok_foldl
              (λ d '(k, v), dict_set d k v)
              (λ d '(k, v), raw_set d k v)
              (λ d, valid_dict d = true)
              (λ item : PauliTensor * Complex, valid_tensor item.1 = true)
              items []) as [E _]; [|done|by apply valid_dict_Forall|].
  - intros acc [k v] Hacc Hk. split; [by apply dict_set_valid | by apply raw_set_valid].
  - rewrite E. f_equal. rewrite (foldl_append_distinct _ id items []).
    + by rewrite list_fmap_id.
    + intros acc [k v] Hk. by apply raw_set_fresh.
    + by rewrite list_fmap_id.
Qed.

Lemma scaled_keys z (d : dict) :
  ((λ '(tensor, coeff), (tensor, Cmul z coeff)) <$> d).*1 = d.*1.
Proof.
  rewrite <- list_fmap_compose. apply list_fmap_ext. by intros ? [] ?.
Qed.

Lemma scaled_valid z (d : dict) :
  valid_dict d = true →
  valid_dict ((λ '(tensor, coeff), (tensor, Cmul z coeff)) <$> d) = true.
Proof.
  intros Hv. apply valid_dict_Forall, Forall_fmap.
  apply valid_dict_Forall in Hv. eapply Forall_impl; [exact Hv|]. by intros [k v].
Qed.


